(** * yahoo-finance-server: the cached fan-out routes

    A shallow embedding of the route handlers of the server and of its
    cache configuration, with the properties of the fan-out and caching
    layer proved over it.

    What is embedded:
    - config/cache.ts: [CACHE_ENABLED], [CACHE_TTL] and the cache
      instance;
    - routes/index.js: the handlers of /quote, /history, /info, /search,
      /trending, /recommendations and /insights;
    - routes/screener.ts: the handler of /screener;
    - routes/news.ts: the handler of /news;
    - routes/index.js: its older screener handler, which forwards any
      type to the provider;
    - utils/logger.ts: the log levels and [log].
    The router of the statements, [handle], dispatches to the first
    eight handlers; the /news handler and the older screener handler are
    built on the same frame and stand beside it.

    Conventions of the embedding.
    - A JavaScript string is a [string]: a sequence of code units, each
      below 256.  Integers are [Z]; the numbers the routes handle are
      integers, exact in a double below 2^53.
    - [undefined] is [None] of an option type.
    - The object [data = {}] that the quote route fills by symbol is a
      [gmap string _]; the arrays the history and info routes push to
      are lists.
    - A handler is a function of the state of the process (the cache
      store, the number of provider calls issued, the events so far) and
      of what the environment decides: the clock, how each provider call
      settles, and in which order the calls complete. *)

From Stdlib Require Import ZArith String Ascii List Lia Permutation.
From Stdlib Require Import DecimalString DecimalZ.
From stdpp Require Import base option list gmap strings.

Local Open Scope Z_scope.

(** ** JavaScript primitives used by the routes *)

Module Js.

(** White space and line terminators of [String.prototype.trim] and of
    [parseInt], among the code units below 256: TAB, LF, VT, FF, CR,
    SP and NBSP. *)
Definition is_ws (c : ascii) : bool :=
  match N_of_ascii c with
  | 9 | 10 | 11 | 12 | 13 | 32 | 160 => true
  | _ => false
  end%N.

Fixpoint trimStart (s : string) : string :=
  match s with
  | EmptyString => EmptyString
  | String c r => if is_ws c then trimStart r else s
  end.

Definition trimEnd (s : string) : string :=
  String.rev (trimStart (String.rev s)).

(** [s.trim()] *)
Definition trim (s : string) : string := trimEnd (trimStart s).

(** [s.split(sep)] for a one-character separator: the pieces between
    the separators, in order; never the empty array. *)
Fixpoint split_go (sep : ascii) (cur : string) (s : string) : list string :=
  match s with
  | EmptyString => [String.rev cur]
  | String c r =>
      if Ascii.eqb c sep then String.rev cur :: split_go sep EmptyString r
      else split_go sep (String c cur) r
  end.

Definition split (sep : ascii) (s : string) : list string :=
  split_go sep EmptyString s.

(** [arr.join(sep)] *)
Fixpoint join (sep : string) (l : list string) : string :=
  match l with
  | [] => EmptyString
  | [x] => x
  | x :: r => x +:+ sep +:+ join sep r
  end.

(** The value of a digit in the given radix, when it is one. *)
Definition digit_of (radix : Z) (c : ascii) : option Z :=
  let n := Z.of_N (N_of_ascii c) in
  let v :=
    if (48 <=? n) && (n <=? 57) then Some (n - 48)
    else if (97 <=? n) && (n <=? 122) then Some (n - 87)
    else if (65 <=? n) && (n <=? 90) then Some (n - 55)
    else None in
  match v with
  | Some d => if d <? radix then Some d else None
  | None => None
  end.

(** The longest prefix of digits, as a number; [None] when it is
    empty. *)
Fixpoint parse_digits (radix : Z) (acc : option Z) (s : string) : option Z :=
  match s with
  | EmptyString => acc
  | String c r =>
      match digit_of radix c with
      | Some d => parse_digits radix (Some (radix * default 0 acc + d)) r
      | None => acc
      end
  end.

(** [parseInt(x)] with no radix argument; [None] is NaN.  The argument
    is first converted to a string, [undefined] giving the text
    "undefined".  The result is the integer the digits denote, which is
    what the code has while that integer is at most 2^53 in size;
    beyond, the code has the nearest double. *)
Definition parseInt (x : option string) : option Z :=
  let inputString := default "undefined" x in
  let s := trimStart inputString in
  let '(sign, s) :=
    match s with
    | String "-" r => (-1, r)
    | String "+" r => (1, r)
    | _ => (1, s)
    end in
  let '(radix, s) :=
    match s with
    | String "0" (String "x" r) => (16, r)
    | String "0" (String "X" r) => (16, r)
    | _ => (10, s)
    end in
  Z.mul sign <$> parse_digits radix None s.

(** [n || d] for a number [n]: NaN and 0 are falsy. *)
Definition or_default (n : option Z) (d : Z) : Z :=
  match n with
  | None => d
  | Some 0 => d
  | Some z => z
  end.

(** [`${n}`] for an integer [n], in full; the code prints a number
    from 10^21 on with an exponent. *)
Definition number_to_string (n : Z) : string :=
  NilZero.string_of_int (Z.to_int n).

(** [arr.includes(x)] on an array of strings. *)
Definition includes (arr : list string) (x : string) : bool :=
  bool_decide (x ∈ arr).

(** [arr.slice(0, e)]: a negative [e] counts from the end. *)
Definition slice0 {A} (e : Z) (arr : list A) : list A :=
  let len := Z.of_nat (length arr) in
  let final := if e <? 0 then Z.max (len + e) 0 else Z.min e len in
  take (Z.to_nat final) arr.

End Js.

(** ** config/cache.ts *)

Module Config.

(** The two variables of [process.env] the module reads; an unset
    variable is [undefined]. *)
Record env := { env_CACHE_ENABLED : option string; env_CACHE_TTL : option string }.

(** [process.env.CACHE_ENABLED !== "false"] *)
Definition CACHE_ENABLED (e : env) : bool :=
  negb (bool_decide (env_CACHE_ENABLED e = Some "false")).

(** [parseInt(process.env.CACHE_TTL) || 300] *)
Definition CACHE_TTL (e : env) : Z :=
  Js.or_default (Js.parseInt (env_CACHE_TTL e)) 300.

End Config.

(** ** The cache store *)

Module Cache.

Record entry (A : Type) := { value : A; expiresAt : Z }.
Arguments value {A} _.
Arguments expiresAt {A} _.

(** The instance [new NodeCache({ stdTTL })]: the default time to live,
    in seconds, and the entries. *)
Record t (A : Type) := { stdTTL : Z; entries : gmap string (entry A) }.
Arguments stdTTL {A} _.
Arguments entries {A} _.

Definition create {A} (ttl : Z) : t A := {| stdTTL := ttl; entries := ∅ |}.

(** Modelled from the spec: the [get] of the node-cache package, which
    is not part of the sources.  "Returns the stored value if present
    and not expired; otherwise reports absent"; an entry is "considered
    absent once now >= expiresAt".  The clock [now] is the millisecond
    clock of the process. *)
Definition get {A} (now : Z) (key : string) (c : t A) : option A :=
  match entries c !! key with
  | Some e => if now <? expiresAt e then Some (value e) else None
  | None => None
  end.

(** Modelled from the spec: the [set] of the node-cache package, which
    is not part of the sources.  "Stores the value with an expiry of
    now + ttlSeconds. Overwrites any existing entry for that key
    unconditionally"; without a [ttl] argument the default of the
    instance applies.  On the millisecond clock a second is 1000
    ticks. *)
Definition set {A} (now : Z) (key : string) (v : A) (ttl : option Z) (c : t A) : t A :=
  {| stdTTL := stdTTL c;
     entries := <[key := {| value := v; expiresAt := now + 1000 * default (stdTTL c) ttl |}]> (entries c) |}.

(** [const cache = new NodeCache({ stdTTL: CACHE_TTL })] *)
Definition cache {A} (e : Config.env) : t A := create (Config.CACHE_TTL e).

End Cache.

(** ** The data provider and the process state *)

(** How a promise settles: [{status: "fulfilled", value}] or
    [{status: "rejected", reason}], the reason being an [Error] of which
    the routes read the [message]. *)
Inductive settled (A : Type) :=
| Fulfilled (value : A)
| Rejected (message : string).
Arguments Fulfilled {A} _.
Arguments Rejected {A} _.

Record chart_options := { period1 : Z; period2 : Z; interval : string }.

(** What [chart] resolves to: the routes read its [quotes] only. *)
Record chart_result (V Q : Type) := { quotes : Q; chart_rest : V }.
Arguments quotes {V Q} _.
Arguments chart_rest {V Q} _.

(** What [screener] resolves to: [quotes] may be [undefined]. *)
Record screener_result (V : Type) := { scr_quotes : option (list V); scr_rest : V }.
Arguments scr_quotes {V} _.
Arguments scr_rest {V} _.

(** The calls the routes make to the provider. *)
Inductive call :=
| CallQuoteSummary (symbol : string)
| CallQuoteSummaryModules (symbol : string) (modules : list string)
| CallChart (symbol : string) (opts : chart_options)
| CallSearch (query : string)
| CallTrendingSymbols (region : string)
| CallRecommendationsBySymbol (symbol : string)
| CallInsights (symbol : string)
| CallScreener (type : string).

(** What a handler does that the rest of the process can observe, in
    the order it does it. *)
Inductive event :=
| CacheGet (key : string)
| CacheSet (key : string)
| Call (c : call)
| Settle (index : nat)
| Respond (status : Z).

Section Model.

(** [V]: the objects the provider resolves to, opaque to the routes;
    [Q]: the [quotes] array of a chart. *)
Context {V Q : Type}.

(** [yahooFinance]: each operation settles one way or the other.  The
    first argument numbers the call among all the calls of the process,
    so that the same arguments may settle differently from one call to
    the next. *)
Record yahoo := {
  quoteSummary : nat → string → settled V;
  quoteSummaryModules : nat → string → list string → settled V;
  chart : nat → string → chart_options → settled (chart_result V Q);
  search : nat → string → settled V;
  trendingSymbols : nat → string → settled V;
  recommendationsBySymbol : nat → string → settled V;
  insights : nat → string → settled V;
  screener : nat → string → settled (screener_result V)
}.

(** A slot of the quote aggregate: [result.value] or
    [{ error: result.reason.message }]. *)
Inductive slot :=
| Value (v : V)
| ErrorMarker (message : string).

(** The JSON values the routes send and store.  All are objects or
    arrays, hence truthy: [if (cached)] tests presence. *)
Inductive body :=
| QuoteData (data : gmap string slot)
| HistoryData (data : list (option Q))
| InfoData (data : list (option V))
| Result (v : V)
| ScreenerData (r : screener_result V)
| ErrorBody (error : string).

Record response := { status : Z; json : body }.

(** The state of the process: the cache instance, how many provider
    calls were issued, and the events so far. *)
Record world := { cache : Cache.t body; issued : nat; trace : list event }.

Definition emit (evs : list event) (w : world) : world :=
  {| cache := cache w; issued := issued w; trace := trace w ++ evs |}.

(** [cache.get(key)] *)
Definition cache_get (now : Z) (key : string) (w : world) : option body * world :=
  (Cache.get now key (cache w), emit [CacheGet key] w).

(** [cache.set(key, value)] *)
Definition cache_set (now : Z) (key : string) (v : body) (w : world) : world :=
  {| cache := Cache.set now key v None (cache w);
     issued := issued w;
     trace := trace w ++ [CacheSet key] |}.

(** [res.json(b)] and [res.status(s).json(b)] *)
Definition respond (s : Z) (b : body) (w : world) : world * option response :=
  (emit [Respond s] w, Some {| status := s; json := b |}).

(** [symbolList.map((symbol) => op(symbol))]: the calls are issued in
    the order of the list, none awaited.  The result holds, by
    position, how each promise will settle. *)
Definition launch {A} (op : nat → string → settled A) (what : string → call)
    (symbolList : list string) (w : world) : list (settled A) * world :=
  (imap (λ i symbol, op (issued w + i)%nat symbol) symbolList,
   {| cache := cache w;
      issued := (issued w + length symbolList)%nat;
      trace := trace w ++ map (λ symbol, Call (what symbol)) symbolList |}).

(** One promise settles: [Promise.allSettled] records the outcome at
    the promise's own position. *)
Definition settle_one {A} (promises : list (settled A))
    (results : list (option (settled A))) (index : nat) : list (option (settled A)) :=
  match promises !! index with
  | Some outcome => <[index := Some outcome]> results
  | None => results
  end.

(** [await Promise.allSettled(promises)], the promises completing in the
    order [order] (a list of positions).  The await resumes, with the
    array of results, only once every promise has settled; [None] is a
    handler that is still suspended. *)
Definition allSettled {A} (promises : list (settled A)) (order : list nat)
    : option (list (settled A)) :=
  mapM id (foldl (settle_one promises) (replicate (length promises) None) order).

Definition await_allSettled {A} (promises : list (settled A)) (order : list nat)
    (w : world) : option (list (settled A)) * world :=
  (allSettled promises order, emit (Settle <$> order) w).

(** [arr.forEach((x, index) => ...)], the callback updating the
    variables [St] it closes over. *)
Fixpoint forEach_from {A St} (f : St → A → nat → St) (index : nat) (arr : list A) (s : St) : St :=
  match arr with
  | [] => s
  | x :: rest => forEach_from f (S index) rest (f s x index)
  end.

Definition forEach {A St} (f : St → A → nat → St) (arr : list A) (s : St) : St :=
  forEach_from f 0 arr s.

(** [symbolList[index]], converted to a property name. *)
Definition at_index (symbolList : list string) (index : nat) : string :=
  default "undefined" (symbolList !! index).

(** [data[symbol] = x] on an object created by [{}]: the name
    [__proto__] is the accessor inherited from [Object.prototype], and
    assigning to it creates no property. *)
Definition assign (symbol : string) (x : slot) (data : gmap string slot) : gmap string slot :=
  if decide (symbol = "__proto__") then data else <[symbol := x]> data.

End Model.

Arguments yahoo : clear implicits.
Arguments slot : clear implicits.
Arguments body : clear implicits.
Arguments response : clear implicits.
Arguments world : clear implicits.

(** ** routes/index.js and routes/screener.ts

    Every handler has the same frame around its own [try] block:

      if (CACHE_ENABLED) { const cached = cache.get(cacheKey);
                           if (cached) return res.json(cached); }
      try { ...the provider calls, giving data...
            if (CACHE_ENABLED) cache.set(cacheKey, data);
            res.json(data);
      } catch (err) { res.status(500).json({ error: err.message }); }

    [cached_route] is that frame and each handler supplies its key and
    its block.  A handler takes the flag [CACHE_ENABLED], the provider,
    the time [now] at which the request arrives (when the cache is read
    and [new Date()] is taken) and the time [later] at which its await
    resumes (when the cache is written).  The calls to [log] write to the
    console only and are left out. *)

Section Routes.

Context {V Q : Type}.
Implicit Types (yf : yahoo V Q) (w : world V Q).

(** Where the provider part of a [try] block ends: suspended at its
    await for ever, with the data to send, or in the [catch]. *)
Inductive outcome :=
| Awaiting
| Done (data : body V Q)
| Thrown (message : string).

Definition cached_route (CACHE_ENABLED : bool) (now later : Z) (cacheKey : string)
    (block : world V Q → outcome * world V Q) w : world V Q * option (response V Q) :=
  let '(cached, w) := if CACHE_ENABLED then cache_get now cacheKey w else (None, w) in
  match cached with
  | Some cached => respond 200 cached w
  | None =>
      let '(result, w) := block w in
      match result with
      | Awaiting => (w, None)
      | Done data =>
          let w := if CACHE_ENABLED then cache_set later cacheKey data w else w in
          respond 200 data w
      | Thrown message => respond 500 (ErrorBody message) w
      end
  end.

(** *** GET /quote/:symbols *)

(** The body of [results.forEach((result, index) => ...)], on the
    variables [data], [successCount] and [errorCount]. *)
Definition quote_each (symbolList : list string)
    (acc : gmap string (slot V) * nat * nat) (result : settled V) (index : nat)
    : gmap string (slot V) * nat * nat :=
  let '(data, successCount, errorCount) := acc in
  let symbol := at_index symbolList index in
  match result with
  | Fulfilled value => (assign symbol (Value value) data, S successCount, errorCount)
  | Rejected message => (assign symbol (ErrorMarker message) data, successCount, S errorCount)
  end.

Definition quote_block yf (order : list nat) (symbolList : list string) w
    : outcome * world V Q :=
  let '(promises, w) :=
    launch (λ n symbol, quoteSummary yf n (Js.trim symbol))
           (λ symbol, CallQuoteSummary (Js.trim symbol)) symbolList w in
  let '(results, w) := await_allSettled promises order w in
  match results with
  | None => (Awaiting, w)
  | Some results =>
      let '(data, successCount, errorCount) :=
        forEach (quote_each symbolList) results (∅, 0%nat, 0%nat) in
      (Done (QuoteData data), w)
  end.

Definition symbolList_of (symbols : string) : list string :=
  Js.trim <$> Js.split "," symbols.

Definition quote_route (CACHE_ENABLED : bool) yf (now later : Z) (order : list nat)
    (symbols : string) w : world V Q * option (response V Q) :=
  let cacheKey := "quote:" +:+ symbols in
  let symbolList := symbolList_of symbols in
  cached_route CACHE_ENABLED now later cacheKey (quote_block yf order symbolList) w.

(** *** GET /history/:symbols *)

(** The two dates the route builds from local calendar fields:
    [new Date(now.getFullYear(), 0, 1)] and [new Date(1970, 0, 1)], as
    millisecond times. *)
Record calendar := { startOfYear : Z → Z; localEpoch : Z }.

Definition day : Z := 24 * 60 * 60 * 1000.

(** The [switch (period)], giving [period1.getTime()]. *)
Definition period_start (cal : calendar) (now : Z) (period : string) : Z :=
  if decide (period = "1d") then now - day
  else if decide (period = "5d") then now - 5 * day
  else if decide (period = "1mo") then now - 30 * day
  else if decide (period = "3mo") then now - 90 * day
  else if decide (period = "6mo") then now - 180 * day
  else if decide (period = "1y") then now - 365 * day
  else if decide (period = "2y") then now - 2 * 365 * day
  else if decide (period = "5y") then now - 5 * 365 * day
  else if decide (period = "10y") then now - 10 * 365 * day
  else if decide (period = "ytd") then startOfYear cal now
  else if decide (period = "max") then localEpoch cal
  else now - 365 * day.

(** [`history:${symbols}:${period}:${interval}`] *)
Definition history_cacheKey (symbols period interval : string) : string :=
  "history:" +:+ symbols +:+ ":" +:+ period +:+ ":" +:+ interval.

Definition history_options (cal : calendar) (now : Z) (period interval : string)
    : chart_options :=
  {| period1 := period_start cal now period / 1000;
     period2 := now / 1000;
     interval := interval |}.

(** [data.push(result.value.quotes)] or [data.push(null)]. *)
Definition history_each
    (acc : list (option Q) * nat * nat) (result : settled (chart_result V Q)) (index : nat)
    : list (option Q) * nat * nat :=
  let '(data, successCount, errorCount) := acc in
  match result with
  | Fulfilled value => (data ++ [Some (quotes value)], S successCount, errorCount)
  | Rejected message => (data ++ [None], successCount, S errorCount)
  end.

Definition history_block yf (opts : chart_options) (order : list nat)
    (symbolList : list string) w : outcome * world V Q :=
  let '(promises, w) :=
    launch (λ n symbol, chart yf n symbol opts)
           (λ symbol, CallChart symbol opts) symbolList w in
  let '(results, w) := await_allSettled promises order w in
  match results with
  | None => (Awaiting, w)
  | Some results =>
      let '(data, successCount, errorCount) :=
        forEach history_each results ([], 0%nat, 0%nat) in
      (Done (HistoryData data), w)
  end.

Definition history_route (CACHE_ENABLED : bool) yf (cal : calendar) (now later : Z)
    (order : list nat) (symbols : string) (query_period query_interval : option string) w
    : world V Q * option (response V Q) :=
  let period := default "1y" query_period in
  let interval := default "1d" query_interval in
  let cacheKey := history_cacheKey symbols period interval in
  let symbolList := symbolList_of symbols in
  cached_route CACHE_ENABLED now later cacheKey
    (history_block yf (history_options cal now period interval) order symbolList) w.

(** *** GET /info/:symbols *)

Definition info_modules : list string := ["assetProfile"; "summaryProfile"].

Definition info_each
    (acc : list (option V) * nat * nat) (result : settled V) (index : nat)
    : list (option V) * nat * nat :=
  let '(data, successCount, errorCount) := acc in
  match result with
  | Fulfilled value => (data ++ [Some value], S successCount, errorCount)
  | Rejected message => (data ++ [None], successCount, S errorCount)
  end.

Definition info_block yf (order : list nat) (symbolList : list string) w
    : outcome * world V Q :=
  let '(promises, w) :=
    launch (λ n symbol, quoteSummaryModules yf n symbol info_modules)
           (λ symbol, CallQuoteSummaryModules symbol info_modules) symbolList w in
  let '(results, w) := await_allSettled promises order w in
  match results with
  | None => (Awaiting, w)
  | Some results =>
      let '(data, successCount, errorCount) :=
        forEach info_each results ([], 0%nat, 0%nat) in
      (Done (InfoData data), w)
  end.

Definition info_route (CACHE_ENABLED : bool) yf (now later : Z) (order : list nat)
    (symbols : string) w : world V Q * option (response V Q) :=
  let cacheKey := "info:" +:+ symbols in
  let symbolList := symbolList_of symbols in
  cached_route CACHE_ENABLED now later cacheKey (info_block yf order symbolList) w.

(** *** The routes of one call: /search, /trending, /recommendations,
    /insights

    [const result = await op(arg)]: a rejection is thrown at the await
    and lands in the [catch].  [completes] says whether the call ever
    settles. *)

Definition issue {A} (op : nat → string → settled A) (what : string → call)
    (arg : string) w : settled A * world V Q :=
  (op (issued w) arg,
   {| cache := cache w; issued := S (issued w); trace := trace w ++ [Call (what arg)] |}).

Definition single_block (op : nat → string → settled V) (what : string → call)
    (completes : bool) (arg : string) w : outcome * world V Q :=
  let '(promise, w) := issue op what arg w in
  if completes then
    match promise with
    | Fulfilled result => (Done (Result result), emit [Settle 0] w)
    | Rejected message => (Thrown message, emit [Settle 0] w)
    end
  else (Awaiting, w).

Definition search_route (CACHE_ENABLED : bool) yf (now later : Z) (completes : bool)
    (query : string) w : world V Q * option (response V Q) :=
  let cacheKey := "search:" +:+ query in
  cached_route CACHE_ENABLED now later cacheKey
    (single_block (search yf) CallSearch completes query) w.

Definition trending_route (CACHE_ENABLED : bool) yf (now later : Z) (completes : bool)
    (params_region : string) w : world V Q * option (response V Q) :=
  let region := if decide (params_region = EmptyString) then "US" else params_region in
  let cacheKey := "trending:" +:+ region in
  cached_route CACHE_ENABLED now later cacheKey
    (single_block (trendingSymbols yf) CallTrendingSymbols completes region) w.

(** [req.params.symbol.toUpperCase()], the case mapping of the runtime
    being the parameter [toUpperCase]. *)
Definition recommendations_route (CACHE_ENABLED : bool) yf (toUpperCase : string → string)
    (now later : Z) (completes : bool) (params_symbol : string) w
    : world V Q * option (response V Q) :=
  let symbol := toUpperCase params_symbol in
  let cacheKey := "recommendations:" +:+ symbol in
  cached_route CACHE_ENABLED now later cacheKey
    (single_block (recommendationsBySymbol yf) CallRecommendationsBySymbol completes symbol) w.

Definition insights_route (CACHE_ENABLED : bool) yf (toUpperCase : string → string)
    (now later : Z) (completes : bool) (params_symbol : string) w
    : world V Q * option (response V Q) :=
  let symbol := toUpperCase params_symbol in
  let cacheKey := "insights:" +:+ symbol in
  cached_route CACHE_ENABLED now later cacheKey
    (single_block (insights yf) CallInsights completes symbol) w.

(** *** GET /screener/:type (routes/screener.ts) *)

Definition validTypes : list string := ["day_gainers"; "day_losers"; "most_actives"].

(** [`screener:${type}:${count}`] *)
Definition screener_cacheKey (type : string) (count : Z) : string :=
  "screener:" +:+ type +:+ ":" +:+ Js.number_to_string count.

(** [parseInt(req.query.count) || 25] *)
Definition screener_count (query_count : option string) : Z :=
  Js.or_default (Js.parseInt query_count) 25.

(** [{ ...result, quotes: (result.quotes || []).slice(0, Math.min(count, 100)) }] *)
Definition slicedResult (count : Z) (result : screener_result V) : screener_result V :=
  {| scr_quotes := Some (Js.slice0 (Z.min count 100) (default [] (scr_quotes result)));
     scr_rest := scr_rest result |}.

Definition screener_block yf (count : Z) (completes : bool) (type : string) w
    : outcome * world V Q :=
  let '(promise, w) := issue (screener yf) CallScreener type w in
  if completes then
    match promise with
    | Fulfilled result => (Done (ScreenerData (slicedResult count result)), emit [Settle 0] w)
    | Rejected message => (Thrown message, emit [Settle 0] w)
    end
  else (Awaiting, w).

Definition screener_route (CACHE_ENABLED : bool) yf (now later : Z) (completes : bool)
    (type : string) (query_count : option string) w : world V Q * option (response V Q) :=
  if negb (Js.includes validTypes type) then
    respond 400
      (ErrorBody ("Invalid screener type: " +:+ type +:+ ". Valid types are: "
                  +:+ Js.join ", " validTypes)) w
  else
    let count := screener_count query_count in
    let cacheKey := screener_cacheKey type count in
    cached_route CACHE_ENABLED now later cacheKey (screener_block yf count completes type) w.

(** *** The router

    A request names its route and carries the route's parameters. *)
Inductive request :=
| GetQuote (symbols : string)
| GetHistory (symbols : string) (period interval : option string)
| GetInfo (symbols : string)
| GetSearch (query : string)
| GetTrending (region : string)
| GetRecommendations (symbol : string)
| GetInsights (symbol : string)
| GetScreener (type : string) (count : option string).

(** What the handlers take from their surroundings. *)
Record runtime := {
  yahooFinance : yahoo V Q;
  dates : calendar;
  toUpperCase : string → string
}.

(** What the environment decides while one request is served. *)
Record timing := {
  t_request : Z;
  t_resume : Z;
  completion : list nat;
  completes : bool
}.

Definition handle (CACHE_ENABLED : bool) (rt : runtime) (t : timing) (req : request) w
    : world V Q * option (response V Q) :=
  let yf := yahooFinance rt in
  let now := t_request t in
  let later := t_resume t in
  match req with
  | GetQuote symbols => quote_route CACHE_ENABLED yf now later (completion t) symbols w
  | GetHistory symbols period interval =>
      history_route CACHE_ENABLED yf (dates rt) now later (completion t) symbols period interval w
  | GetInfo symbols => info_route CACHE_ENABLED yf now later (completion t) symbols w
  | GetSearch query => search_route CACHE_ENABLED yf now later (completes t) query w
  | GetTrending region => trending_route CACHE_ENABLED yf now later (completes t) region w
  | GetRecommendations symbol =>
      recommendations_route CACHE_ENABLED yf (toUpperCase rt) now later (completes t) symbol w
  | GetInsights symbol =>
      insights_route CACHE_ENABLED yf (toUpperCase rt) now later (completes t) symbol w
  | GetScreener type count => screener_route CACHE_ENABLED yf now later (completes t) type count w
  end.

End Routes.

Arguments outcome : clear implicits.
Arguments runtime : clear implicits.

(** ** Vocabulary of the statements *)

Definition is_cache_event (ev : event) : bool :=
  match ev with
  | CacheGet _ | CacheSet _ => true
  | _ => false
  end.

(** The provider calls among some events, in order. *)
Definition provider_calls (evs : list event) : list call :=
  omap (λ ev, match ev with Call c => Some c | _ => None end) evs.

(** Every position below [n] is among those that settled. *)
Definition covers (order : list nat) (n : nat) : Prop :=
  ∀ i, (i < n)%nat → i ∈ order.

(** A string without the separator of the cache keys. *)
Definition colon_free (s : string) : Prop :=
  ":"%char ∉ list_ascii_of_string s.

Section Vocabulary.

Context {V Q : Type}.

(** The slot a settled call is given in the quote aggregate, in the
    history aggregate and in the info aggregate. *)
Definition quote_slot (r : settled V) : slot V :=
  match r with
  | Fulfilled v => Value v
  | Rejected m => ErrorMarker m
  end.

Definition history_slot (r : settled (chart_result V Q)) : option Q :=
  match r with
  | Fulfilled v => Some (quotes v)
  | Rejected _ => None
  end.

Definition info_slot (r : settled V) : option V :=
  match r with
  | Fulfilled v => Some v
  | Rejected _ => None
  end.

(** The symbol list of a fan-out request. *)
Definition fanout_symbols (req : @request) : option (list string) :=
  match req with
  | GetQuote symbols | GetHistory symbols _ _ | GetInfo symbols =>
      Some (symbolList_of symbols)
  | _ => None
  end.

(** How many provider calls serving a request from the provider
    takes: one per symbol, one for a route of one call, none for a
    request the screener route rejects. *)
Definition fanout_size (req : @request) : nat :=
  match req with
  | GetQuote symbols | GetHistory symbols _ _ | GetInfo symbols =>
      length (symbolList_of symbols)
  | GetScreener type _ => if Js.includes validTypes type then 1 else 0
  | _ => 1
  end.

(** A cache that does not answer at [now] under [key]. *)
Definition misses (CACHE_ENABLED : bool) (now : Z) (key : string) (w : world V Q) : Prop :=
  CACHE_ENABLED = false ∨ Cache.get now key (cache w) = None.

(** Assigning the pairs of a list to [data], one after the other. *)
Definition assign_all (data : gmap string (slot V)) (pairs : list (string * slot V))
    : gmap string (slot V) :=
  foldl (λ d p, assign p.1 p.2 d) data pairs.

(** By position, each symbol with the slot its own call earns, the
    first call being the [n]-th of the process. *)
Definition quote_pairs (yf : yahoo V Q) (n : nat) (symbolList : list string)
    : list (string * slot V) :=
  imap (λ i symbol, (symbol, quote_slot (quoteSummary yf (n + i) (Js.trim symbol)))) symbolList.

Definition history_data (yf : yahoo V Q) (n : nat) (opts : chart_options)
    (symbolList : list string) : list (option Q) :=
  imap (λ i symbol, history_slot (chart yf (n + i) symbol opts)) symbolList.

Definition info_data (yf : yahoo V Q) (n : nat) (symbolList : list string) : list (option V) :=
  imap (λ i symbol, info_slot (quoteSummaryModules yf (n + i) symbol info_modules)) symbolList.

(** The process once the calls [calls] were issued and the promises at
    the positions [order] have settled. *)
Definition after_fanout (calls : list call) (order : list nat) (w : world V Q) : world V Q :=
  {| cache := cache w;
     issued := issued w + length calls;
     trace := trace w ++ (Call <$> calls) ++ (Settle <$> order) |}.

(** The cache key under which a request is served. *)
Definition cacheKey_of (rt : runtime V Q) (req : @request) : string :=
  match req with
  | GetQuote symbols => "quote:" +:+ symbols
  | GetHistory symbols period interval =>
      history_cacheKey symbols (default "1y" period) (default "1d" interval)
  | GetInfo symbols => "info:" +:+ symbols
  | GetSearch query => "search:" +:+ query
  | GetTrending region => "trending:" +:+ (if decide (region = EmptyString) then "US" else region)
  | GetRecommendations symbol => "recommendations:" +:+ toUpperCase rt symbol
  | GetInsights symbol => "insights:" +:+ toUpperCase rt symbol
  | GetScreener type count => screener_cacheKey type (screener_count count)
  end.

(** The aggregate of a fan-out request that arrives at [now] when [n]
    provider calls were issued before it: every position with the slot
    its own call earns. *)
Definition aggregate (rt : runtime V Q) (n : nat) (now : Z) (req : @request) : option (body V Q) :=
  match req with
  | GetQuote symbols =>
      Some (QuoteData (assign_all ∅ (quote_pairs (yahooFinance rt) n (symbolList_of symbols))))
  | GetHistory symbols period interval =>
      Some (HistoryData
              (history_data (yahooFinance rt) n
                 (history_options (dates rt) now (default "1y" period) (default "1d" interval))
                 (symbolList_of symbols)))
  | GetInfo symbols =>
      Some (InfoData (info_data (yahooFinance rt) n (symbolList_of symbols)))
  | _ => None
  end.

(** A block that leaves the cache alone and issues [n] provider calls. *)
Definition block_frame (block : world V Q → outcome V Q * world V Q) (n : nat) : Prop :=
  ∀ w, ∃ r evs,
    block w = (r, {| cache := cache w; issued := issued w + n; trace := trace w ++ evs |})
    ∧ Forall (λ ev, is_cache_event ev = false) evs
    ∧ length (provider_calls evs) = n.

End Vocabulary.

(** ** A provider and a process for the examples *)

(** The symbol [BADSYM] is not found; every other call succeeds. *)
Definition not_found (symbol : string) : option string :=
  if decide (symbol = "BADSYM") then Some "Not found" else None.

(** A provider whose calls are rejected with the message [reject] gives
    for their argument, and fulfilled otherwise. *)
Definition sample_yahoo (reject : string → option string) : yahoo string (list Z) :=
  let answer arg := from_option Rejected (Fulfilled ("data for " +:+ arg)) (reject arg) in
  {| quoteSummary := λ _ symbol, answer symbol;
     quoteSummaryModules := λ _ symbol _, answer symbol;
     chart := λ n symbol _,
       from_option Rejected
         (Fulfilled {| quotes := [Z.of_nat n]; chart_rest := symbol |}) (reject symbol);
     search := λ _ query, answer query;
     trendingSymbols := λ _ region, answer region;
     recommendationsBySymbol := λ _ symbol, answer symbol;
     insights := λ _ symbol, answer symbol;
     screener := λ _ type,
       from_option Rejected
         (Fulfilled {| scr_quotes := Some ["AAPL"; "MSFT"; "TSLA"]; scr_rest := type |})
         (reject type) |}.

Definition sample_runtime (reject : string → option string) : runtime string (list Z) :=
  {| yahooFinance := sample_yahoo reject;
     dates := {| startOfYear := λ now, now - now `mod` (365 * day); localEpoch := 0 |};
     toUpperCase := id |}.

(** A process that has just started, with nothing set in its
    environment. *)
Definition fresh_world : world string (list Z) :=
  {| cache := Cache.cache {| Config.env_CACHE_ENABLED := None; Config.env_CACHE_TTL := None |};
     issued := 0;
     trace := [] |}.

(** ** utils/logger.ts *)

Module Logger.

(** [keyof typeof LOG_LEVELS] *)
Inductive level := error | warn | info | debug.

Definition name (l : level) : string :=
  match l with
  | error => "error"
  | warn => "warn"
  | info => "info"
  | debug => "debug"
  end.

(** [const LOG_LEVELS = { error: 0, warn: 1, info: 2, debug: 3 }] *)
Definition LOG_LEVELS (l : level) : Z :=
  match l with
  | error => 0
  | warn => 1
  | info => 2
  | debug => 3
  end.

(** What [LOG_LEVELS[key]] is for an arbitrary key: the number of an own
    property, a member inherited from [Object.prototype] (a function or
    an object), or [undefined]. *)
Inductive member :=
| Number (n : Z)
| Inherited
| Undefined.

(** [LOG_LEVELS[key]], [inherited] telling the names that
    [Object.prototype] defines in the runtime. *)
Definition get (inherited : string → bool) (key : string) : member :=
  if decide (key = "error") then Number 0
  else if decide (key = "warn") then Number 1
  else if decide (key = "info") then Number 2
  else if decide (key = "debug") then Number 3
  else if inherited key then Inherited
  else Undefined.

(** [LOG_LEVELS[process.env.LOG_LEVEL] || LOG_LEVELS.info]: the number 0
    and [undefined] are falsy; an unset variable is the key
    [undefined]. *)
Definition CURRENT_LOG_LEVEL (inherited : string → bool) (env_LOG_LEVEL : option string)
    : member :=
  match get inherited (default "undefined" env_LOG_LEVEL) with
  | Number 0 => Number 2
  | Undefined => Number 2
  | m => m
  end.

(** [n <= current]: a function or an object converts to NaN, and no
    comparison with NaN holds. *)
Definition at_most (n : Z) (current : member) : bool :=
  match current with
  | Number c => n <=? c
  | _ => false
  end.

(** [s.toUpperCase()] for a text of ASCII letters. *)
Definition upper (c : ascii) : ascii :=
  let n := N_of_ascii c in
  if ((97 <=? n) && (n <=? 122))%N then ascii_of_N (n - 32) else c.

Fixpoint toUpperCase (s : string) : string :=
  match s with
  | EmptyString => EmptyString
  | String c r => String (upper c) (toUpperCase r)
  end.

(** [log(level, message)]: the line handed to [console.log], if any;
    [timestamp] is [new Date().toISOString()]. *)
Definition log (current : member) (timestamp : string) (l : level) (message : string)
    : option string :=
  if at_most (LOG_LEVELS l) current then
    Some ("[" +:+ timestamp +:+ "] " +:+ toUpperCase (name l) +:+ ": " +:+ message)
  else None.

(** The names [Object.prototype] defines in Node. *)
Definition object_prototype_names : list string :=
  ["constructor"; "__defineGetter__"; "__defineSetter__"; "hasOwnProperty";
   "__lookupGetter__"; "__lookupSetter__"; "isPrototypeOf"; "propertyIsEnumerable";
   "toString"; "valueOf"; "__proto__"; "toLocaleString"].

End Logger.

(** ** routes/news.ts and the screener handler of routes/index.js *)

(** An article of [result.news], of which the route reads seven
    members; [J] is any JSON value, [undefined] included. *)
Record provider_article (J : Type) := {
  pa_title : J;
  pa_publisher : J;
  pa_link : J;
  pa_providerPublishTime : J;
  pa_type : J;
  pa_thumbnail : J;
  pa_relatedTickers : J
}.
Arguments pa_title {J} _.
Arguments pa_publisher {J} _.
Arguments pa_link {J} _.
Arguments pa_providerPublishTime {J} _.
Arguments pa_type {J} _.
Arguments pa_thumbnail {J} _.
Arguments pa_relatedTickers {J} _.

(** [interface NewsArticle] *)
Record NewsArticle (J : Type) := {
  title : J;
  publisher : J;
  link : J;
  publishedAt : J;
  type : J;
  thumbnail : J;
  relatedTickers : J
}.
Arguments title {J} _.
Arguments publisher {J} _.
Arguments link {J} _.
Arguments publishedAt {J} _.
Arguments type {J} _.
Arguments thumbnail {J} _.
Arguments relatedTickers {J} _.

(** [interface NewsResponseBody], [dataAvailable.hasNews] being
    [hasNews]. *)
Record NewsResponseBody (J : Type) := {
  count : nat;
  news : list (NewsArticle J);
  message : string;
  hasNews : bool
}.
Arguments count {J} _.
Arguments news {J} _.
Arguments message {J} _.
Arguments hasNews {J} _.

(** The objects the news route stores and sends, beside those the
    provider resolves to. *)
Inductive news_json (J : Type) :=
| Provided (j : J)
| News (b : NewsResponseBody J).
Arguments Provided {J} _.
Arguments News {J} _.

Section NewsAndScreener.

Context {J Q : Type}.

(** [parseInt(req.query.count) || 10] *)
Definition news_count (query_count : option string) : Z :=
  Js.or_default (Js.parseInt query_count) 10.

(** [`news_general:${count}`] *)
Definition news_cacheKey (count : Z) : string :=
  "news_general:" +:+ Js.number_to_string count.

(** The callback of [(result.news || []).map(...)]. *)
Definition newsArticle (article : provider_article J) : NewsArticle J :=
  {| title := pa_title article;
     publisher := pa_publisher article;
     link := pa_link article;
     publishedAt := pa_providerPublishTime article;
     type := pa_type article;
     thumbnail := pa_thumbnail article;
     relatedTickers := pa_relatedTickers article |}.

(** [const response: NewsResponseBody = {...}], from [result.news]. *)
Definition news_response (result_news : option (list (provider_article J)))
    : NewsResponseBody J :=
  let newsArticles := newsArticle <$> default [] result_news in
  {| count := length newsArticles;
     news := newsArticles;
     message :=
       if (0 <? length newsArticles)%nat then
         "Found " +:+ Js.number_to_string (Z.of_nat (length newsArticles))
         +:+ " general market news articles"
       else "No recent general market news found.";
     hasNews := (0 <? length newsArticles)%nat |}.

(** The [try] block of GET /news; [searchNews n query count] is the
    [n]-th call of the process, [yahooFinance.search(query, { newsCount:
    count })], resolving to the [news] of its result. *)
Definition news_block
    (searchNews : nat → string → Z → settled (option (list (provider_article J))))
    (count : Z) (completes : bool) (w : world (news_json J) Q)
    : outcome (news_json J) Q * world (news_json J) Q :=
  let '(promise, w) := issue (λ n query, searchNews n query count) CallSearch EmptyString w in
  if completes then
    match promise with
    | Fulfilled result_news =>
        (Done (Result (News (news_response result_news))), emit [Settle 0] w)
    | Rejected message => (Thrown message, emit [Settle 0] w)
    end
  else (Awaiting, w).

Definition news_route (CACHE_ENABLED : bool)
    (searchNews : nat → string → Z → settled (option (list (provider_article J))))
    (now later : Z) (completes : bool) (query_count : option string)
    (w : world (news_json J) Q)
    : world (news_json J) Q * option (response (news_json J) Q) :=
  let count := news_count query_count in
  let cacheKey := news_cacheKey count in
  cached_route CACHE_ENABLED now later cacheKey (news_block searchNews count completes) w.

(** The [switch (type)] of the screener handler of routes/index.js. *)
Definition scrIds (type : string) : string :=
  if decide (type = "day_gainers") then "day_gainers"
  else if decide (type = "day_losers") then "day_losers"
  else if decide (type = "most_actives") then "most_actives"
  else if decide (type = "most_shorted") then "most_shorted_stocks"
  else type.

(** GET /screener/:type of routes/index.js; [screenerQuery n scrIds
    count] is the [n]-th call of the process, [yahooFinance.screener({
    scrIds, count })]. *)
Definition screener_route_js {V : Type} (CACHE_ENABLED : bool)
    (screenerQuery : nat → string → Z → settled V)
    (now later : Z) (completes : bool) (type : string) (query_count : option string)
    (w : world V Q) : world V Q * option (response V Q) :=
  let count := screener_count query_count in
  let cacheKey := screener_cacheKey type count in
  cached_route CACHE_ENABLED now later cacheKey
    (single_block (λ n ids, screenerQuery n ids count) CallScreener completes (scrIds type)) w.

End NewsAndScreener.

(** ** More vocabulary *)

Section MoreVocabulary.

Context {V Q : Type}.

(** Two requests for the same route. *)
Definition same_route (req req' : @request) : Prop :=
  match req, req' with
  | GetQuote _, GetQuote _
  | GetHistory _ _ _, GetHistory _ _ _
  | GetInfo _, GetInfo _
  | GetSearch _, GetSearch _
  | GetTrending _, GetTrending _
  | GetRecommendations _, GetRecommendations _
  | GetInsights _, GetInsights _
  | GetScreener _ _, GetScreener _ _ => True
  | _, _ => False
  end.

(** The one provider call of a request for a route of one call, as a
    function of its number in the process. *)
Definition single_call (rt : runtime V Q) (req : @request) : option (nat → settled V) :=
  match req with
  | GetSearch query => Some (λ n, search (yahooFinance rt) n query)
  | GetTrending region =>
      Some (λ n, trendingSymbols (yahooFinance rt) n
                   (if decide (region = EmptyString) then "US" else region))
  | GetRecommendations symbol =>
      Some (λ n, recommendationsBySymbol (yahooFinance rt) n (toUpperCase rt symbol))
  | GetInsights symbol => Some (λ n, insights (yahooFinance rt) n (toUpperCase rt symbol))
  | _ => None
  end.

(** What the provider gave for a request: [b] is the result of serving
    [req] by the provider, the request arriving at [now] when [n] calls
    were issued before it.  For a fan-out route it is the aggregate of
    the request, for a route of one call what that call resolved to,
    and for the screener route the sliced result of the call for the
    type. *)
Definition produced (rt : runtime V Q) (n : nat) (now : Z) (req : @request) (b : body V Q)
    : Prop :=
  match req with
  | GetQuote _ | GetHistory _ _ _ | GetInfo _ => aggregate rt n now req = Some b
  | GetScreener type count =>
      type ∈ validTypes
      ∧ ∃ result, screener (yahooFinance rt) n type = Fulfilled result
                  ∧ b = ScreenerData (slicedResult (screener_count count) result)
  | _ => ∃ op value, single_call rt req = Some op ∧ op n = Fulfilled value ∧ b = Result value
  end.

(** The states a process goes through: it starts with an empty cache
    and serves one request after the other. *)
Inductive reachable (CACHE_ENABLED : bool) (rt : runtime V Q) : world V Q → Prop :=
| reachable_start ttl :
    reachable CACHE_ENABLED rt {| cache := Cache.create ttl; issued := 0; trace := [] |}
| reachable_step w t req :
    reachable CACHE_ENABLED rt w →
    reachable CACHE_ENABLED rt (handle CACHE_ENABLED rt t req w).1.

(** All the provider calls of a request settle. *)
Definition settles (t : timing) (req : @request) : Prop :=
  match fanout_symbols req with
  | Some symbolList => covers (completion t) (length symbolList)
  | None => completes t = true
  end.

End MoreVocabulary.

(** A result that was fulfilled. *)
Definition is_fulfilled {A} (r : settled A) : bool :=
  match r with
  | Fulfilled _ => true
  | Rejected _ => false
  end.

(** The periods of the history route that are a number of days back. *)
Definition period_days : list (string * Z) :=
  [("1d", 1); ("5d", 5); ("1mo", 30); ("3mo", 90); ("6mo", 180);
   ("1y", 365); ("2y", 730); ("5y", 1825); ("10y", 3650)].

(** [Number.MAX_SAFE_INTEGER], and the integers that a double holds
    exactly and prints in full. *)
Definition MAX_SAFE_INTEGER : Z := 2 ^ 53 - 1.

Definition isSafeInteger (n : Z) : Prop := - MAX_SAFE_INTEGER <= n <= MAX_SAFE_INTEGER.

(** The commas of a text. *)
Definition commas (s : string) : nat :=
  length (filter (λ c, c = ","%char) (list_ascii_of_string s)).

(** ** The primitives at work *)

Example trim_ex : Js.trim " AAPL  " = "AAPL". Proof. reflexivity. Qed.
Example split_ex : Js.split "," "AAPL, GOOGL,,X" = ["AAPL"; " GOOGL"; EmptyString; "X"].
Proof. reflexivity. Qed.
Example parseInt_ex :
  map Js.parseInt [None; Some "50"; Some " -7px"; Some "0x1F"; Some "abc"; Some "0x"; Some EmptyString]
  = [None; Some 50; Some (-7); Some 31; None; None; None].
Proof. reflexivity. Qed.
Example number_to_string_ex :
  map Js.number_to_string [25; -1; 100] = ["25"; "-1"; "100"].
Proof. reflexivity. Qed.
Example slice0_ex :
  (Js.slice0 2 [1;2;3], Js.slice0 (-1) [1;2;3], Js.slice0 100 [1;2;3], Js.slice0 (-5) [1;2;3])
  = ([1;2], [1;2], [1;2;3], []).
Proof. reflexivity. Qed.

(** ** Promise.allSettled *)

Section AllSettled.

Context {A : Type}.
Implicit Types (promises : list (settled A)) (order : list nat).

Lemma settle_one_length promises results index :
  length (settle_one promises results index) = length results.
Proof.
  unfold settle_one. destruct (promises !! index); [apply length_insert | done].
Qed.

Lemma settle_one_lookup promises results index i :
  length results = length promises →
  settle_one promises results index !! i
  = if decide (i = index) then Some <$> promises !! i else results !! i.
Proof.
  intros Hlen. unfold settle_one. case_decide as Hi.
  - subst i. destruct (promises !! index) as [o|] eqn:Ho; simpl.
    + apply list_lookup_insert_eq. rewrite Hlen. by eapply lookup_lt_Some.
    + apply lookup_ge_None. rewrite Hlen. by apply lookup_ge_None.
  - destruct (promises !! index); [|done].
    by apply list_lookup_insert_ne.
Qed.

(** After the promises at the positions [order] have settled, a
    position holds its outcome if it is among them and is untouched
    otherwise. *)
Lemma settled_slots_lookup promises order : ∀ results i,
  length results = length promises →
  foldl (settle_one promises) results order !! i
  = if decide (i ∈ order) then Some <$> promises !! i else results !! i.
Proof.
  induction order as [|j order IH]; intros results i Hlen; cbn [foldl].
  - rewrite decide_False; [done | apply not_elem_of_nil].
  - rewrite IH; [|rewrite settle_one_length; exact Hlen].
    rewrite settle_one_lookup by done.
    destruct (decide (i ∈ j :: order)) as [Hin|Hnin];
      destruct (decide (i ∈ order)) as [Hin'|Hnin']; try done.
    + apply elem_of_cons in Hin as [->|?]; [|done]. by rewrite decide_True.
    + contradict Hnin. by apply elem_of_cons; right.
    + rewrite decide_False; [done|]. intros ->. apply Hnin, elem_of_cons. by left.
Qed.

Lemma allSettled_all promises order :
  (∀ i, (i < length promises)%nat → i ∈ order) →
  allSettled promises order = Some promises.
Proof.
  intros Hall. unfold allSettled.
  replace (foldl _ _ order) with (Some <$> promises).
  { by apply mapM_fmap_Some. }
  apply list_eq. intros i.
  rewrite settled_slots_lookup by apply length_replicate.
  rewrite list_lookup_fmap.
  case_decide as Hi; [done|].
  assert (length promises ≤ i)%nat as Hge.
  { destruct (decide (i < length promises)%nat) as [Hlt|]; [|lia].
    by apply Hall in Hlt. }
  rewrite (proj2 (lookup_ge_None promises i)) by done.
  symmetry. apply lookup_ge_None. by rewrite length_replicate.
Qed.

Lemma allSettled_pending promises order i :
  (i < length promises)%nat → i ∉ order →
  allSettled promises order = None.
Proof.
  intros Hlt Hi. unfold allSettled. apply mapM_None.
  apply Exists_exists. exists None. split; [|done].
  apply list_elem_of_lookup. exists i.
  rewrite settled_slots_lookup by apply length_replicate.
  rewrite decide_False by done. by apply lookup_replicate_2.
Qed.

Lemma allSettled_Some promises order results :
  allSettled promises order = Some results →
  results = promises ∧ ∀ i, (i < length promises)%nat → i ∈ order.
Proof.
  intros Hres.
  assert (∀ i, (i < length promises)%nat → i ∈ order) as Hall.
  { intros i Hlt. destruct (decide (i ∈ order)) as [|Hni]; [done|].
    rewrite (allSettled_pending _ _ i) in Hres; done. }
  split; [|done]. rewrite allSettled_all in Hres by done. congruence.
Qed.

Lemma permutation_covers (order : list nat) n :
  Permutation order (seq 0 n) → covers order n.
Proof.
  intros Hp i Hi. rewrite Hp. apply elem_of_seq. lia.
Qed.

End AllSettled.

(** ** The forEach loops *)

Section Loops.

Context {V Q : Type}.
Implicit Types (yf : yahoo V Q) (w : world V Q).

Lemma assign_lookup (k s : string) (x : slot V) (data : gmap string (slot V)) :
  assign k x data !! s
  = if decide (k = s ∧ s ≠ "__proto__") then Some x else data !! s.
Proof.
  unfold assign. destruct (decide (k = "__proto__")) as [->|Hk].
  - rewrite decide_False; [done|]. by intros [<- ?].
  - destruct (decide (k = s)) as [->|Hks].
    + rewrite decide_True by done. apply lookup_insert_eq.
    + rewrite decide_False by (by intros [? _]). by apply lookup_insert_ne.
Qed.

Lemma assign_all_snoc (data : gmap string (slot V)) pairs k x :
  assign_all data (pairs ++ [(k, x)]) = assign k x (assign_all data pairs).
Proof. unfold assign_all. by rewrite foldl_app. Qed.

Lemma assign_all_app (data : gmap string (slot V)) l1 l2 :
  assign_all data (l1 ++ l2) = assign_all (assign_all data l1) l2.
Proof. unfold assign_all. by rewrite foldl_app. Qed.

(** A symbol that is not assigned keeps what it had. *)
Lemma assign_all_other (data : gmap string (slot V)) pairs s :
  s ∉ pairs.*1 → assign_all data pairs !! s = data !! s.
Proof.
  revert data. induction pairs as [|[k x] pairs IH]; intros data Hs; [done|].
  cbn in Hs. apply not_elem_of_cons in Hs as [Hne Hs].
  change (assign_all data ((k, x) :: pairs)) with (assign_all (assign k x data) pairs).
  rewrite IH by done. rewrite assign_lookup.
  rewrite decide_False; [done|]. by intros [-> _].
Qed.

(** The last assignment to a symbol is the one that stays. *)
Lemma assign_all_last (data : gmap string (slot V)) l1 l2 s x :
  s ≠ "__proto__" → s ∉ l2.*1 →
  assign_all data (l1 ++ (s, x) :: l2) !! s = Some x.
Proof.
  intros Hs Hl2. rewrite assign_all_app.
  change (assign_all ?d ((s, x) :: l2)) with (assign_all (assign s x d) l2).
  rewrite assign_all_other by done. rewrite assign_lookup. by rewrite decide_True.
Qed.

(** Every slot was assigned, or was there from the start. *)
Lemma assign_all_slot (data : gmap string (slot V)) pairs s x :
  assign_all data pairs !! s = Some x →
  data !! s = Some x ∨ (s ≠ "__proto__" ∧ (s, x) ∈ pairs).
Proof.
  revert data. induction pairs as [|[k y] pairs IH] using rev_ind; intros data; [by left|].
  rewrite assign_all_snoc, assign_lookup. case_decide as Hk.
  - destruct Hk as [-> Hs]. intros [= ->]. right. split; [done|].
    apply elem_of_app. right. by apply list_elem_of_singleton.
  - intros [?|[? ?]]%IH; [by left|]. right. split; [done|].
    apply elem_of_app. by left.
Qed.

(** The symbols that have a slot. *)
Lemma assign_all_is_Some (data : gmap string (slot V)) pairs s :
  is_Some (assign_all data pairs !! s)
  ↔ is_Some (data !! s) ∨ (s ≠ "__proto__" ∧ s ∈ pairs.*1).
Proof.
  revert data. induction pairs as [|[k y] pairs IH] using rev_ind; intros data.
  - cbn. split; [by left|]. intros [?|[_ H]]; [done|]. by apply elem_of_nil in H.
  - rewrite assign_all_snoc, assign_lookup, fmap_app. cbn.
    case_decide as Hk.
    + destruct Hk as [-> Hs]. split; [|by eauto]. intros _. right. split; [done|].
      apply elem_of_app. right. by apply list_elem_of_singleton.
    + rewrite IH. split.
      * intros [?|[? ?]]; [by left|]. right. split; [done|]. apply elem_of_app. by left.
      * intros [?|[Hs [?|Hin%list_elem_of_singleton]%elem_of_app]]; [by left|by right|].
        subst. by destruct Hk.
Qed.

(** Distinct symbols, none of them [__proto__], get a slot each. *)
Lemma assign_all_size (data : gmap string (slot V)) pairs :
  NoDup pairs.*1 → "__proto__" ∉ pairs.*1 →
  (∀ s, s ∈ pairs.*1 → data !! s = None) →
  size (assign_all data pairs) = (size data + length pairs)%nat.
Proof.
  induction pairs as [|[k y] pairs IH] using rev_ind; intros Hnd Hp Hfresh.
  { cbn. lia. }
  rewrite fmap_app in Hnd, Hp, Hfresh. cbn in Hnd, Hp, Hfresh.
  apply NoDup_app in Hnd as (Hnd & Hdisj & _).
  rewrite assign_all_snoc, length_app. cbn.
  unfold assign. rewrite decide_False.
  2:{ intros ->. apply Hp, elem_of_app. right. by apply list_elem_of_singleton. }
  rewrite map_size_insert_None.
  - rewrite IH; [lia|done|..].
    + intros ?. apply Hp, elem_of_app. by left.
    + intros s ?. apply Hfresh, elem_of_app. by left.
  - rewrite assign_all_other.
    + apply Hfresh, elem_of_app. right. by apply list_elem_of_singleton.
    + intros Hin. apply (Hdisj _ Hin). by apply list_elem_of_singleton.
Qed.

End Loops.

Section Blocks.

Context {V Q : Type}.
Implicit Types (yf : yahoo V Q) (w : world V Q).

Lemma quote_forEach_from symbolList (f : nat → string → settled V) : ∀ l idx data sc ec,
  (∀ k s, l !! k = Some s → symbolList !! (idx + k)%nat = Some s) →
  ∃ sc' ec',
    forEach_from (quote_each symbolList) idx (imap (λ k, f (idx + k)%nat) l) (data, sc, ec)
    = (assign_all data (imap (λ k s, (s, quote_slot (f (idx + k)%nat s))) l), sc', ec')
    ∧ (sc' + ec' = sc + ec + length l)%nat.
Proof.
  induction l as [|x l IH]; intros idx data sc ec Hl.
  { exists sc, ec. split; [done | cbn; lia]. }
  assert (at_index symbolList idx = x) as Hx.
  { unfold at_index. specialize (Hl 0%nat x eq_refl).
    rewrite Nat.add_0_r in Hl. by rewrite Hl. }
  rewrite !imap_cons. cbn [forEach_from].
  rewrite (imap_ext _ (λ k, f (S idx + k)%nat) l).
  2:{ intros k y _. cbn. by rewrite Nat.add_succ_r. }
  rewrite (imap_ext (_ ∘ S) (λ k s, (s, quote_slot (f (S idx + k)%nat s))) l).
  2:{ intros k y _. cbn. by rewrite Nat.add_succ_r. }
  assert (∀ k s, l !! k = Some s → symbolList !! (S idx + k)%nat = Some s) as Hl'.
  { intros k s Hk. specialize (Hl (S k) s Hk). by rewrite Nat.add_succ_r in Hl. }
  unfold quote_each at 2. rewrite Hx, Nat.add_0_r.
  destruct (f idx x) as [v|m]; cbn [quote_slot].
  - destruct (IH (S idx) (assign x (Value v) data) (S sc) ec Hl') as (sc' & ec' & -> & Hc).
    exists sc', ec'. split; [done | cbn; lia].
  - destruct (IH (S idx) (assign x (ErrorMarker m) data) sc (S ec) Hl') as (sc' & ec' & -> & Hc).
    exists sc', ec'. split; [done | cbn; lia].
Qed.

(** The loop of the quote route assigns, position after position, each
    symbol the slot of its own call; every result is counted once. *)
Lemma quote_forEach yf n symbolList :
  ∃ successCount errorCount,
    forEach (quote_each symbolList)
      (imap (λ i symbol, quoteSummary yf (n + i)%nat (Js.trim symbol)) symbolList)
      (∅, 0%nat, 0%nat)
    = (assign_all ∅ (quote_pairs yf n symbolList), successCount, errorCount)
    ∧ (successCount + errorCount = length symbolList)%nat.
Proof.
  destruct (quote_forEach_from symbolList (λ i s, quoteSummary yf (n + i)%nat (Js.trim s))
              symbolList 0%nat ∅ 0%nat 0%nat) as (sc & ec & H & Hc); [done|].
  exists sc, ec. split; [|lia]. exact H.
Qed.

Lemma history_forEach_from (results : list (settled (chart_result V Q))) : ∀ idx data sc ec,
  ∃ sc' ec',
    forEach_from history_each idx results (data, sc, ec)
    = (data ++ (history_slot <$> results), sc', ec')
    ∧ (sc' + ec' = sc + ec + length results)%nat.
Proof.
  induction results as [|r results IH]; intros idx data sc ec.
  { exists sc, ec. rewrite app_nil_r. split; [done | cbn; lia]. }
  cbn [forEach_from]. unfold history_each at 2.
  destruct r as [v|m]; cbn [fmap list_fmap history_slot].
  - destruct (IH (S idx) (data ++ [Some (quotes v)]) (S sc) ec) as (sc' & ec' & -> & Hc).
    exists sc', ec'. rewrite <- app_assoc. split; [done | cbn; lia].
  - destruct (IH (S idx) (data ++ [None]) sc (S ec)) as (sc' & ec' & -> & Hc).
    exists sc', ec'. rewrite <- app_assoc. split; [done | cbn; lia].
Qed.

Lemma info_forEach_from (results : list (settled V)) : ∀ idx data sc ec,
  ∃ sc' ec',
    forEach_from info_each idx results (data, sc, ec)
    = (data ++ (info_slot <$> results), sc', ec')
    ∧ (sc' + ec' = sc + ec + length results)%nat.
Proof.
  induction results as [|r results IH]; intros idx data sc ec.
  { exists sc, ec. rewrite app_nil_r. split; [done | cbn; lia]. }
  cbn [forEach_from]. unfold info_each at 2.
  destruct r as [v|m]; cbn [fmap list_fmap info_slot].
  - destruct (IH (S idx) (data ++ [Some v]) (S sc) ec) as (sc' & ec' & -> & Hc).
    exists sc', ec'. rewrite <- app_assoc. split; [done | cbn; lia].
  - destruct (IH (S idx) (data ++ [None]) sc (S ec)) as (sc' & ec' & -> & Hc).
    exists sc', ec'. rewrite <- app_assoc. split; [done | cbn; lia].
Qed.

(** Launching the calls and awaiting them. *)
Lemma launch_await {A} (op : nat → string → settled A) (what : string → call)
    symbolList order w :
  await_allSettled (launch op what symbolList w).1 order (launch op what symbolList w).2
  = (allSettled (imap (λ i symbol, op (issued w + i)%nat symbol) symbolList) order,
     after_fanout (what <$> symbolList) order w).
Proof.
  unfold await_allSettled, launch, after_fanout, emit. cbn.
  rewrite length_fmap, <- list_fmap_compose, <- app_assoc. done.
Qed.

End Blocks.

(** ** The try blocks *)

Section BlockResults.

Context {V Q : Type}.
Implicit Types (yf : yahoo V Q) (w : world V Q).

Lemma quote_block_done yf order symbolList w :
  covers order (length symbolList) →
  quote_block yf order symbolList w
  = (Done (QuoteData (assign_all ∅ (quote_pairs yf (issued w) symbolList))),
     after_fanout ((λ symbol, CallQuoteSummary (Js.trim symbol)) <$> symbolList) order w).
Proof.
  intros Hc. unfold quote_block.
  pose proof (launch_await (λ n symbol, quoteSummary yf n (Js.trim symbol))
                (λ symbol, CallQuoteSummary (Js.trim symbol)) symbolList order w) as Hla.
  destruct (launch _ _ symbolList w) as [promises w1]. cbn [fst snd] in Hla.
  rewrite Hla. rewrite allSettled_all by (by rewrite length_imap).
  destruct (quote_forEach yf (issued w) symbolList) as (sc & ec & -> & _). done.
Qed.

Lemma history_block_done yf opts order symbolList w :
  covers order (length symbolList) →
  history_block yf opts order symbolList w
  = (Done (HistoryData (history_data yf (issued w) opts symbolList)),
     after_fanout ((λ symbol, CallChart symbol opts) <$> symbolList) order w).
Proof.
  intros Hc. unfold history_block.
  pose proof (launch_await (λ n symbol, chart yf n symbol opts)
                (λ symbol, CallChart symbol opts) symbolList order w) as Hla.
  destruct (launch _ _ symbolList w) as [promises w1]. cbn [fst snd] in Hla.
  rewrite Hla. rewrite allSettled_all by (by rewrite length_imap).
  unfold forEach.
  destruct (history_forEach_from
              (imap (λ i symbol, chart yf (issued w + i)%nat symbol opts) symbolList)
              0%nat [] 0%nat 0%nat) as (sc & ec & -> & _).
  cbn [app]. unfold history_data. by rewrite fmap_imap.
Qed.

Lemma info_block_done yf order symbolList w :
  covers order (length symbolList) →
  info_block yf order symbolList w
  = (Done (InfoData (info_data yf (issued w) symbolList)),
     after_fanout ((λ symbol, CallQuoteSummaryModules symbol info_modules) <$> symbolList)
       order w).
Proof.
  intros Hc. unfold info_block.
  pose proof (launch_await (λ n symbol, quoteSummaryModules yf n symbol info_modules)
                (λ symbol, CallQuoteSummaryModules symbol info_modules)
                symbolList order w) as Hla.
  destruct (launch _ _ symbolList w) as [promises w1]. cbn [fst snd] in Hla.
  rewrite Hla. rewrite allSettled_all by (by rewrite length_imap).
  unfold forEach.
  destruct (info_forEach_from
              (imap (λ i symbol, quoteSummaryModules yf (issued w + i)%nat symbol info_modules)
                 symbolList)
              0%nat [] 0%nat 0%nat) as (sc & ec & -> & _).
  cbn [app]. unfold info_data. by rewrite fmap_imap.
Qed.

(** While a call is outstanding the handler stays at its await. *)
Lemma quote_block_awaiting yf order symbolList w i :
  (i < length symbolList)%nat → i ∉ order →
  quote_block yf order symbolList w
  = (Awaiting,
     after_fanout ((λ symbol, CallQuoteSummary (Js.trim symbol)) <$> symbolList) order w).
Proof.
  intros Hi Hni. unfold quote_block.
  pose proof (launch_await (λ n symbol, quoteSummary yf n (Js.trim symbol))
                (λ symbol, CallQuoteSummary (Js.trim symbol)) symbolList order w) as Hla.
  destruct (launch _ _ symbolList w) as [promises w1]. cbn [fst snd] in Hla.
  rewrite Hla. by rewrite (allSettled_pending _ _ i) by (by rewrite ?length_imap).
Qed.

Lemma history_block_awaiting yf opts order symbolList w i :
  (i < length symbolList)%nat → i ∉ order →
  history_block yf opts order symbolList w
  = (Awaiting, after_fanout ((λ symbol, CallChart symbol opts) <$> symbolList) order w).
Proof.
  intros Hi Hni. unfold history_block.
  pose proof (launch_await (λ n symbol, chart yf n symbol opts)
                (λ symbol, CallChart symbol opts) symbolList order w) as Hla.
  destruct (launch _ _ symbolList w) as [promises w1]. cbn [fst snd] in Hla.
  rewrite Hla. by rewrite (allSettled_pending _ _ i) by (by rewrite ?length_imap).
Qed.

Lemma info_block_awaiting yf order symbolList w i :
  (i < length symbolList)%nat → i ∉ order →
  info_block yf order symbolList w
  = (Awaiting,
     after_fanout ((λ symbol, CallQuoteSummaryModules symbol info_modules) <$> symbolList)
       order w).
Proof.
  intros Hi Hni. unfold info_block.
  pose proof (launch_await (λ n symbol, quoteSummaryModules yf n symbol info_modules)
                (λ symbol, CallQuoteSummaryModules symbol info_modules)
                symbolList order w) as Hla.
  destruct (launch _ _ symbolList w) as [promises w1]. cbn [fst snd] in Hla.
  rewrite Hla. by rewrite (allSettled_pending _ _ i) by (by rewrite ?length_imap).
Qed.

Lemma covers_dec order n : covers order n ∨ ∃ i, (i < n)%nat ∧ i ∉ order.
Proof.
  destruct (decide (Forall (λ i, i ∈ order) (seq 0 n))) as [Hall|Hex].
  - left. intros i Hi. rewrite Forall_forall in Hall. apply Hall, elem_of_seq. lia.
  - right. apply not_Forall_Exists in Hex; [|apply _].
    apply Exists_exists in Hex as (i & Hi%elem_of_seq & Hni). exists i. split; [lia|done].
Qed.

End BlockResults.

(** ** The frame around the blocks *)

Section Frame.

Context {V Q : Type}.
Implicit Types (yf : yahoo V Q) (w : world V Q).

Lemma fanout_events_no_cache (calls : list call) (order : list nat) :
  Forall (λ ev, is_cache_event ev = false) ((Call <$> calls) ++ (Settle <$> order)).
Proof.
  apply Forall_app. split; apply Forall_fmap, Forall_true; done.
Qed.

Lemma fanout_events_calls (calls : list call) (order : list nat) :
  provider_calls ((Call <$> calls) ++ (Settle <$> order)) = calls.
Proof.
  unfold provider_calls. rewrite omap_app.
  replace (omap _ (Settle <$> order)) with (@nil call).
  2:{ induction order as [|i order IH]; [done|]. cbn. exact IH. }
  rewrite app_nil_r. induction calls as [|c calls IH]; [done|]. cbn. by rewrite IH.
Qed.

Lemma after_fanout_frame (calls : list call) order n w :
  length calls = n →
  ∃ evs,
    after_fanout calls order w
    = {| cache := cache w; issued := issued w + n; trace := trace w ++ evs |}
    ∧ Forall (λ ev, is_cache_event ev = false) evs
    ∧ length (provider_calls evs) = n.
Proof.
  intros <-. exists ((Call <$> calls) ++ (Settle <$> order)). split; [done|]. split.
  - apply fanout_events_no_cache.
  - by rewrite fanout_events_calls.
Qed.

Lemma quote_block_frame yf order symbolList :
  block_frame (quote_block yf order symbolList) (length symbolList).
Proof.
  intros w.
  destruct (after_fanout_frame ((λ symbol, CallQuoteSummary (Js.trim symbol)) <$> symbolList)
              order (length symbolList) w) as (evs & Hw & Hev); [apply length_fmap|].
  destruct (covers_dec order (length symbolList)) as [Hc|(i & Hi & Hni)].
  - rewrite quote_block_done by done. rewrite Hw. eauto.
  - rewrite (quote_block_awaiting _ _ _ _ i) by done. rewrite Hw. eauto.
Qed.

Lemma history_block_frame yf opts order symbolList :
  block_frame (history_block yf opts order symbolList) (length symbolList).
Proof.
  intros w.
  destruct (after_fanout_frame ((λ symbol, CallChart symbol opts) <$> symbolList)
              order (length symbolList) w) as (evs & Hw & Hev); [apply length_fmap|].
  destruct (covers_dec order (length symbolList)) as [Hc|(i & Hi & Hni)].
  - rewrite history_block_done by done. rewrite Hw. eauto.
  - rewrite (history_block_awaiting _ _ _ _ _ i) by done. rewrite Hw. eauto.
Qed.

Lemma info_block_frame yf order symbolList :
  block_frame (info_block yf order symbolList) (length symbolList).
Proof.
  intros w.
  destruct (after_fanout_frame
              ((λ symbol, CallQuoteSummaryModules symbol info_modules) <$> symbolList)
              order (length symbolList) w) as (evs & Hw & Hev); [apply length_fmap|].
  destruct (covers_dec order (length symbolList)) as [Hc|(i & Hi & Hni)].
  - rewrite info_block_done by done. rewrite Hw. eauto.
  - rewrite (info_block_awaiting _ _ _ _ i) by done. rewrite Hw. eauto.
Qed.

Lemma single_block_frame (op : nat → string → settled V) what completes arg :
  block_frame (single_block (Q:=Q) op what completes arg) 1.
Proof.
  intros w. unfold single_block, issue, emit. cbn.
  rewrite <- (Nat.add_1_r (issued w)).
  destruct completes; [destruct (op (issued w) arg)|]; cbn;
    rewrite <- ?app_assoc; eexists _, _; (split; [reflexivity|]);
    split; repeat constructor.
Qed.

Lemma screener_block_frame yf count completes type :
  block_frame (screener_block yf count completes type) 1.
Proof.
  intros w. unfold screener_block, issue, emit. cbn.
  rewrite <- (Nat.add_1_r (issued w)).
  destruct completes; [destruct (screener yf (issued w) type)|]; cbn;
    rewrite <- ?app_assoc; eexists _, _; (split; [reflexivity|]);
    split; repeat constructor.
Qed.

(** With the cache disabled the frame adds a response to what the block
    does, and nothing else. *)
Lemma cached_route_disabled now later key block n w :
  block_frame block n →
  ∃ r evs,
    cached_route false now later key block w
    = ({| cache := cache w; issued := issued w + n; trace := trace w ++ evs |}, r)
    ∧ Forall (λ ev, is_cache_event ev = false) evs
    ∧ length (provider_calls evs) = n.
Proof.
  intros Hb. destruct (Hb w) as (r & evs & Hbw & Hnc & Hn).
  unfold cached_route. rewrite Hbw. destruct r as [|data|message]; cbn.
  - exists None, evs. done.
  - exists (Some {| status := 200; json := data |}), (evs ++ [Respond 200]).
    unfold respond, emit. cbn. rewrite <- app_assoc. split; [done|]. split.
    + apply Forall_app. split; [done|]. by repeat constructor.
    + unfold provider_calls in *. by rewrite omap_app, length_app, Hn.
  - exists (Some {| status := 500; json := ErrorBody message |}), (evs ++ [Respond 500]).
    unfold respond, emit. cbn. rewrite <- app_assoc. split; [done|]. split.
    + apply Forall_app. split; [done|]. by repeat constructor.
    + unfold provider_calls in *. by rewrite omap_app, length_app, Hn.
Qed.

Lemma cached_route_hit now later key block w data :
  Cache.get now key (cache w) = Some data →
  cached_route true now later key block w
  = ({| cache := cache w; issued := issued w;
        trace := trace w ++ [CacheGet key; Respond 200] |},
     Some {| status := 200; json := data |}).
Proof.
  intros Hget. unfold cached_route, cache_get, respond, emit. rewrite Hget. cbn.
  by rewrite <- app_assoc.
Qed.

Lemma cached_route_miss now later key block w :
  Cache.get now key (cache w) = None →
  cached_route true now later key block w
  = match block (emit [CacheGet key] w) with
    | (Awaiting, w1) => (w1, None)
    | (Done data, w1) => respond 200 data (cache_set later key data w1)
    | (Thrown message, w1) => respond 500 (ErrorBody message) w1
    end.
Proof.
  intros Hget. unfold cached_route, cache_get. rewrite Hget.
  destruct (block _) as [[|data|message] w1]; done.
Qed.

Lemma cache_get_set {A} now later key (v : A) (c : Cache.t A) :
  Cache.get now key (Cache.set later key v None c)
  = if now <? later + 1000 * Cache.stdTTL c then Some v else None.
Proof. unfold Cache.get, Cache.set. cbn. by rewrite lookup_insert_eq. Qed.

Lemma cache_get_alive {A} now key (c : Cache.t A) e :
  Cache.entries c !! key = Some e → now < Cache.expiresAt e →
  Cache.get now key c = Some (Cache.value e).
Proof.
  intros He Hlt. unfold Cache.get. rewrite He.
  by rewrite (proj2 (Z.ltb_lt _ _)).
Qed.

Lemma cache_get_Some {A} now key (c : Cache.t A) v :
  Cache.get now key c = Some v →
  ∃ e, Cache.entries c !! key = Some e ∧ Cache.value e = v ∧ now < Cache.expiresAt e.
Proof.
  unfold Cache.get. destruct (Cache.entries c !! key) as [e|]; [|done].
  destruct (now <? Cache.expiresAt e) eqn:Hlt; [|done].
  intros [= <-]. exists e. repeat split. by apply Z.ltb_lt.
Qed.

(** A request that was answered with a result is answered with the same
    result, from the cache alone, for as long as the entry lives. *)
Lemma cached_route_twice key block1 block2 n now1 later1 now2 later2 w w1 r1 :
  block_frame block1 n →
  cached_route true now1 later1 key block1 w = (w1, Some r1) →
  status r1 = 200 →
  (∀ e, Cache.entries (cache w1) !! key = Some e → now2 < Cache.expiresAt e) →
  cached_route true now2 later2 key block2 w1
  = ({| cache := cache w1; issued := issued w1;
        trace := trace w1 ++ [CacheGet key; Respond 200] |}, Some r1).
Proof.
  intros Hb H1 Hst Halive.
  destruct (Cache.get now1 key (cache w)) as [data|] eqn:Hget.
  - rewrite (cached_route_hit _ _ _ _ _ data) in H1 by done.
    injection H1 as <- <-. cbn in Halive.
    apply cache_get_Some in Hget as (e & He & <- & _).
    apply cached_route_hit. cbn. apply cache_get_alive; auto.
  - rewrite cached_route_miss in H1 by done.
    destruct (Hb (emit [CacheGet key] w)) as (r & evs & Hbw & _). rewrite Hbw in H1.
    destruct r as [|data|message]; [done| |].
    + unfold respond, cache_set, emit in H1. cbn in H1. injection H1 as <- <-.
      cbn in Halive. apply cached_route_hit. cbn.
      rewrite cache_get_set.
      rewrite (proj2 (Z.ltb_lt _ _)); [done|].
      apply (Halive {| Cache.value := data;
                       Cache.expiresAt := later1 + 1000 * Cache.stdTTL (cache w) |}).
      apply lookup_insert_eq.
    + unfold respond in H1. injection H1 as _ <-. done.
Qed.

End Frame.

(** ** The router *)

Section Router.

Context {V Q : Type}.
Implicit Types (yf : yahoo V Q) (w : world V Q) (rt : runtime V Q) (req : @request).

(** Every request is either turned down by the screener route or served
    through the frame, under its cache key, by a block that leaves the
    cache alone. *)
Lemma handle_cases rt req :
  (fanout_size req = 0%nat
   ∧ ∀ E t w, ∃ message, handle E rt t req w = respond 400 (ErrorBody message) w)
  ∨ (∀ E t, ∃ block,
       block_frame block (fanout_size req)
       ∧ ∀ w, handle E rt t req w
              = cached_route E (t_request t) (t_resume t) (cacheKey_of rt req) block w).
Proof.
  destruct req as [symbols|symbols period interval|symbols|query|region|symbol|symbol|type count].
  - right. intros E t. eexists. split; [apply quote_block_frame|]. intros w. reflexivity.
  - right. intros E t. eexists. split; [apply history_block_frame|]. intros w. reflexivity.
  - right. intros E t. eexists. split; [apply info_block_frame|]. intros w. reflexivity.
  - right. intros E t. eexists. split; [apply single_block_frame|]. intros w. reflexivity.
  - right. intros E t. eexists. split; [apply single_block_frame|]. intros w. reflexivity.
  - right. intros E t. eexists. split; [apply single_block_frame|]. intros w. reflexivity.
  - right. intros E t. eexists. split; [apply single_block_frame|]. intros w. reflexivity.
  - cbn [fanout_size]. destruct (Js.includes validTypes type) eqn:Hv.
    + right. intros E t. eexists. split; [apply screener_block_frame|]. intros w.
      cbn [handle]. unfold screener_route. rewrite Hv. reflexivity.
    + left. split; [done|]. intros E t w. eexists.
      cbn [handle]. unfold screener_route. rewrite Hv. reflexivity.
Qed.

(** What a fan-out request comes to: its block ends with the aggregate
    once every call has settled, and stays at its await before. *)
Lemma handle_fanout rt req symbolList t :
  fanout_symbols req = Some symbolList →
  ∃ block calls (data : nat → body V Q),
    length calls = length symbolList
    ∧ (∀ E w, handle E rt t req w
              = cached_route E (t_request t) (t_resume t) (cacheKey_of rt req) block w)
    ∧ (∀ n, aggregate rt n (t_request t) req = Some (data n))
    ∧ (∀ w, covers (completion t) (length symbolList) →
            block w = (Done (data (issued w)), after_fanout calls (completion t) w))
    ∧ (∀ w i, (i < length symbolList)%nat → i ∉ completion t →
              block w = (Awaiting, after_fanout calls (completion t) w)).
Proof.
  destruct req as [symbols|symbols period interval|symbols| | | | | ]; try done;
    intros [= <-].
  - eexists (quote_block _ _ _), _, (λ n, QuoteData _). split; [|split; [|split; [|split]]].
    + apply length_fmap.
    + reflexivity.
    + reflexivity.
    + intros w Hc. by apply quote_block_done.
    + intros w i Hi Hni. by apply (quote_block_awaiting _ _ _ _ i).
  - eexists (history_block _ _ _ _), _, (λ n, HistoryData _).
    split; [|split; [|split; [|split]]].
    + apply length_fmap.
    + reflexivity.
    + reflexivity.
    + intros w Hc. by apply history_block_done.
    + intros w i Hi Hni. by apply (history_block_awaiting _ _ _ _ _ i).
  - eexists (info_block _ _ _), _, (λ n, InfoData _). split; [|split; [|split; [|split]]].
    + apply length_fmap.
    + reflexivity.
    + reflexivity.
    + intros w Hc. by apply info_block_done.
    + intros w i Hi Hni. by apply (info_block_awaiting _ _ _ _ i).
Qed.

End Router.

(** ** The caching contract of the routes *)

Section Caching.

Context {V Q : Type}.
Implicit Types (yf : yahoo V Q) (w : world V Q) (rt : runtime V Q) (req : @request).

(** A fan-out request is never answered with an error: its block has no
    [catch] to land in. *)
Lemma fanout_answers_200 rt (t : timing) req symbolList E w w1 (r1 : response V Q) :
  fanout_symbols req = Some symbolList →
  handle E rt t req w = (w1, Some r1) →
  status r1 = 200.
Proof.
  intros Hf H.
  destruct (handle_fanout rt req symbolList t Hf)
    as (block & calls & data & _ & Hh & _ & Hdone & Hawait).
  rewrite Hh in H.
  assert (∀ w0, ∃ w0', block w0 = (Awaiting, w0') ∨ ∃ d, block w0 = (Done d, w0')) as Hb.
  { intros w0. destruct (covers_dec (completion t) (length symbolList)) as [Hc|(i & Hi & Hni)].
    - eexists. right. eexists. by apply Hdone.
    - eexists. left. by apply (Hawait _ i). }
  destruct E.
  - destruct (Cache.get (t_request t) (cacheKey_of rt req) (cache w)) as [cached|] eqn:Hget.
    + rewrite (cached_route_hit _ _ _ _ _ cached) in H by done. by injection H as _ <-.
    + rewrite cached_route_miss in H by done.
      destruct (Hb (emit [CacheGet (cacheKey_of rt req)] w)) as (w0' & [Hw|[d Hw]]);
        rewrite Hw in H; [done|].
      unfold respond in H. by injection H as _ <-.
  - unfold cached_route in H.
    destruct (Hb w) as (w0' & [Hw|[d Hw]]); rewrite Hw in H; [done|].
    unfold respond in H. by injection H as _ <-.
Qed.

(** C5. With the cache enabled, a request that was answered with a
    result (as every fan-out request is, and every other request but
    for a 400 or 500 error) and is made again while the cache entry of
    its key has not expired gets the very same response, and serving it
    issues no provider call: the handler returns on the cache hit. *)
Theorem cache_hit_idempotent rt (t1 t2 : timing) req w w1 (r1 : response V Q) :
  handle true rt t1 req w = (w1, Some r1) →
  is_Some (fanout_symbols req) ∨ status r1 = 200 →
  (∀ e, Cache.entries (cache w1) !! cacheKey_of rt req = Some e →
        t_request t2 < Cache.expiresAt e) →
  ∃ evs,
    handle true rt t2 req w1
    = ({| cache := cache w1; issued := issued w1; trace := trace w1 ++ evs |}, Some r1)
    ∧ provider_calls evs = [].
Proof.
  intros H1 Hres Halive.
  assert (status r1 = 200) as Hst.
  { destruct Hres as [[symbolList Hf]|?]; [|done]. by eapply fanout_answers_200. }
  destruct (handle_cases rt req) as [[_ Hrej]|Hserved].
  - destruct (Hrej true t1 w) as [message Hm]. rewrite Hm in H1.
    unfold respond in H1. injection H1 as _ <-. done.
  - destruct (Hserved true t1) as (block1 & Hb1 & Hh1).
    destruct (Hserved true t2) as (block2 & _ & Hh2).
    rewrite Hh1 in H1. rewrite Hh2.
    exists [CacheGet (cacheKey_of rt req); Respond 200]. split; [|done].
    by eapply cached_route_twice.
Qed.

(** C8. With the cache disabled, two identical requests in a row are
    both served by the provider alone: neither reads or writes the
    cache, the store is left as it was, and each issues all the provider
    calls of its fan-out. *)
Theorem cache_disabled_pass_through rt (t1 t2 : timing) req w :
  ∃ r1 r2 evs1 evs2,
    let w1 := {| cache := cache w; issued := issued w + fanout_size req;
                 trace := trace w ++ evs1 |} in
    let w2 := {| cache := cache w; issued := issued w + fanout_size req + fanout_size req;
                 trace := trace w ++ evs1 ++ evs2 |} in
    handle false rt t1 req w = (w1, r1)
    ∧ handle false rt t2 req w1 = (w2, r2)
    ∧ Forall (λ ev, is_cache_event ev = false) (evs1 ++ evs2)
    ∧ length (provider_calls evs1) = fanout_size req
    ∧ length (provider_calls evs2) = fanout_size req.
Proof.
  destruct (handle_cases rt req) as [[Hn Hrej]|Hserved].
  - rewrite Hn.
    destruct (Hrej false t1 w) as [m1 Hm1].
    set (w1 := {| cache := cache w; issued := issued w + 0;
                  trace := trace w ++ [Respond 400] |}).
    destruct (Hrej false t2 w1) as [m2 Hm2].
    exists (Some {| status := 400; json := ErrorBody m1 |}),
           (Some {| status := 400; json := ErrorBody m2 |}), [Respond 400], [Respond 400].
    cbn zeta. fold w1. rewrite Hm1, Hm2. unfold respond, emit, w1. cbn.
    rewrite !Nat.add_0_r, <- app_assoc. repeat split; by repeat constructor.
  - destruct (Hserved false t1) as (block1 & Hb1 & Hh1).
    destruct (Hserved false t2) as (block2 & Hb2 & Hh2).
    destruct (cached_route_disabled (t_request t1) (t_resume t1) (cacheKey_of rt req)
                block1 _ w Hb1) as (r1 & evs1 & Hr1 & Hnc1 & Hc1).
    destruct (cached_route_disabled (t_request t2) (t_resume t2) (cacheKey_of rt req)
                block2 _
                {| cache := cache w; issued := issued w + fanout_size req;
                   trace := trace w ++ evs1 |} Hb2) as (r2 & evs2 & Hr2 & Hnc2 & Hc2).
    exists r1, r2, evs1, evs2. cbn zeta. rewrite Hh1, Hh2, Hr1, Hr2. cbn.
    rewrite <- app_assoc. repeat split; [|done..]. by apply Forall_app.
Qed.

End Caching.

(** ** When the cache is written *)

Section CacheWrites.

Context {V Q : Type}.
Implicit Types (yf : yahoo V Q) (w : world V Q) (rt : runtime V Q) (req : @request).

Lemma no_write_in (l pre post : list event) key :
  (∀ k, CacheSet k ∉ l) → l ≠ pre ++ CacheSet key :: post.
Proof.
  intros Hl ->. apply (Hl key), elem_of_app. right. apply elem_of_cons. by left.
Qed.

(** Where the one write of a trace is. *)
Lemma write_position (l post0 pre post : list event) k key :
  (∀ k, CacheSet k ∉ l) → (∀ k, CacheSet k ∉ post0) →
  l ++ CacheSet k :: post0 = pre ++ CacheSet key :: post → pre = l.
Proof.
  revert pre. induction l as [|a l IH]; intros pre Hl Hpost Heq.
  - destruct pre as [|b pre]; [done|]. cbn in Heq. injection Heq as _ Heq.
    by apply no_write_in in Heq.
  - destruct pre as [|b pre]; cbn in Heq; injection Heq as -> Heq.
    + exfalso. apply (Hl key), elem_of_cons. by left.
    + f_equal. apply IH; [|done..]. intros k' Hk'. apply (Hl k'), elem_of_cons. by right.
Qed.

Lemma fanout_events_no_write key (calls : list call) (order : list nat) :
  ∀ k, CacheSet k ∉ [CacheGet key] ++ (Call <$> calls) ++ (Settle <$> order).
Proof.
  intros k [Hin|[Hin|Hin]%elem_of_app]%elem_of_app.
  - by apply list_elem_of_singleton in Hin.
  - by apply list_elem_of_fmap in Hin as (? & ? & _).
  - by apply list_elem_of_fmap in Hin as (? & ? & _).
Qed.

(** C4. A fan-out request writes the cache only after every one of its
    calls has settled: in the events of the handler, whatever precedes a
    write holds the settlement of every position, and while a call is
    outstanding the store is left as it was.  Once all have settled
    after a miss, what is stored is the aggregate that is sent, error
    slots included and whatever the number of failures, retrievable
    until the default time to live has passed. *)
Theorem fanout_written_once_all_settled rt (t : timing) req symbolList w w' r :
  fanout_symbols req = Some symbolList →
  handle true rt t req w = (w', r) →
  ∃ evs,
    trace w' = trace w ++ evs
    ∧ (∀ pre key post, evs = pre ++ CacheSet key :: post →
         ∀ i, (i < length symbolList)%nat → Settle i ∈ pre)
    ∧ ((∃ i, (i < length symbolList)%nat ∧ i ∉ completion t) → cache w' = cache w)
    ∧ (Cache.get (t_request t) (cacheKey_of rt req) (cache w) = None →
       covers (completion t) (length symbolList) →
       ∃ data,
         aggregate rt (issued w) (t_request t) req = Some data
         ∧ r = Some {| status := 200; json := data |}
         ∧ ∀ now, now < t_resume t + 1000 * Cache.stdTTL (cache w) →
                  Cache.get now (cacheKey_of rt req) (cache w') = Some data).
Proof.
  intros Hf H.
  destruct (handle_fanout rt req symbolList t Hf)
    as (block & calls & data & Hlen & Hh & Hagg & Hdone & Hawait).
  rewrite Hh in H. set (key := cacheKey_of rt req) in *.
  destruct (Cache.get (t_request t) key (cache w)) as [cached|] eqn:Hget.
  { rewrite (cached_route_hit _ _ _ _ _ cached) in H by done. injection H as <- <-.
    exists [CacheGet key; Respond 200]. cbn. split; [done|]. split; [|done].
    intros pre k post Heq. exfalso. revert Heq. apply no_write_in.
    intros k' Hk'. repeat (apply elem_of_cons in Hk' as [?|Hk']; [done|]).
    by apply elem_of_nil in Hk'. }
  rewrite cached_route_miss in H by done.
  destruct (covers_dec (completion t) (length symbolList)) as [Hc|(i & Hi & Hni)].
  - rewrite Hdone in H by done.
    unfold respond, cache_set, after_fanout, emit in H. cbn in H. injection H as <- <-.
    exists (([CacheGet key] ++ (Call <$> calls) ++ (Settle <$> completion t))
              ++ CacheSet key :: [Respond 200]).
    split; [|split; [|split]].
    + cbn. rewrite <- !app_assoc. cbn. by rewrite <- ?app_assoc.
    + intros pre k post Heq i Hi.
      apply write_position in Heq as ->.
      * apply elem_of_app. right. apply elem_of_app. right.
        apply list_elem_of_fmap. exists i. split; [done|]. by apply Hc.
      * apply fanout_events_no_write.
      * intros k' Hk'. apply elem_of_cons in Hk' as [?|Hk']; [done|].
        by apply elem_of_nil in Hk'.
    + intros (i & Hi & Hni). by apply Hc in Hi.
    + intros _ _. exists (data (issued w)). split; [apply Hagg|]. split; [done|].
      intros now Hnow. cbn. rewrite cache_get_set. by rewrite (proj2 (Z.ltb_lt _ _)).
  - rewrite (Hawait _ i) in H by done. injection H as <- <-.
    exists ([CacheGet key] ++ (Call <$> calls) ++ (Settle <$> completion t)).
    split; [|split; [|split]].
    + cbn. by rewrite <- !app_assoc.
    + intros pre k post Heq. exfalso. revert Heq. apply no_write_in.
      apply fanout_events_no_write.
    + done.
    + intros _ Hc. by apply Hc in Hi.
Qed.

End CacheWrites.

(** ** The aggregates *)

Section Aggregates.

Context {V Q : Type}.
Implicit Types (yf : yahoo V Q) (w : world V Q).

(** After a miss, a block that ends with data has it sent, and stored
    when the cache is enabled. *)
Lemma cached_route_done E now later key block w data w1 :
  misses E now key w →
  block (if E then emit [CacheGet key] w else w) = (Done data, w1) →
  cached_route E now later key block w
  = respond 200 data (if E then cache_set later key data w1 else w1).
Proof.
  intros Hm Hb. destruct E.
  - destruct Hm as [?|Hget]; [done|]. rewrite cached_route_miss by done. by rewrite Hb.
  - unfold cached_route. by rewrite Hb.
Qed.

Lemma quote_route_done E yf now later order symbols w :
  misses E now ("quote:" +:+ symbols) w →
  covers order (length (symbolList_of symbols)) →
  ∃ w',
    quote_route E yf now later order symbols w
    = (w', Some {| status := 200;
                   json := QuoteData
                             (assign_all ∅
                                (quote_pairs yf (issued w) (symbolList_of symbols))) |})
    ∧ issued w' = (issued w + length (symbolList_of symbols))%nat.
Proof.
  intros Hm Hc. unfold quote_route.
  erewrite cached_route_done; [| done | by apply quote_block_done].
  destruct E; eexists; unfold respond, cache_set, after_fanout, emit;
    (split; [reflexivity | cbn; by rewrite length_fmap]).
Qed.

Lemma history_route_done E yf cal now later order symbols period interval w :
  misses E now (history_cacheKey symbols (default "1y" period) (default "1d" interval)) w →
  covers order (length (symbolList_of symbols)) →
  ∃ w',
    history_route E yf cal now later order symbols period interval w
    = (w', Some {| status := 200;
                   json := HistoryData
                             (history_data yf (issued w)
                                (history_options cal now (default "1y" period)
                                   (default "1d" interval))
                                (symbolList_of symbols)) |})
    ∧ issued w' = (issued w + length (symbolList_of symbols))%nat.
Proof.
  intros Hm Hc. unfold history_route.
  erewrite cached_route_done; [| done | by apply history_block_done].
  destruct E; eexists; unfold respond, cache_set, after_fanout, emit;
    (split; [reflexivity | cbn; by rewrite length_fmap]).
Qed.

Lemma quote_pairs_symbols yf n symbolList : (quote_pairs yf n symbolList).*1 = symbolList.
Proof.
  unfold quote_pairs. rewrite fmap_imap.
  rewrite (imap_ext _ (const id) symbolList) by done.
  rewrite imap_const. apply list_fmap_id.
Qed.

Lemma quote_pairs_lookup yf n symbolList i symbol :
  symbolList !! i = Some symbol →
  quote_pairs yf n symbolList !! i
  = Some (symbol, quote_slot (quoteSummary yf (n + i) (Js.trim symbol))).
Proof. intros Hi. unfold quote_pairs. rewrite list_lookup_imap, Hi. done. Qed.

(** The slot of a symbol is the slot its last position earns. *)
Lemma quote_data_last yf n symbolList i symbol :
  symbolList !! i = Some symbol →
  symbol ≠ "__proto__" →
  (∀ j, (i < j)%nat → symbolList !! j ≠ Some symbol) →
  assign_all ∅ (quote_pairs yf n symbolList) !! symbol
  = Some (quote_slot (quoteSummary yf (n + i) (Js.trim symbol))).
Proof.
  intros Hi Hp Hlast.
  rewrite <- (take_drop_middle _ i _ (quote_pairs_lookup yf n _ _ _ Hi)).
  apply assign_all_last; [done|].
  rewrite fmap_drop, quote_pairs_symbols.
  intros (j & Hj)%list_elem_of_lookup. rewrite lookup_drop in Hj.
  apply (Hlast (S i + j)%nat); [lia | done].
Qed.

Lemma quote_data_dom yf n symbolList s :
  is_Some (assign_all ∅ (quote_pairs yf n symbolList) !! s)
  ↔ s ∈ symbolList ∧ s ≠ "__proto__".
Proof.
  rewrite assign_all_is_Some, quote_pairs_symbols, lookup_empty. split.
  - intros [[? [=]]|[? ?]]. done.
  - intros [? ?]. by right.
Qed.

Lemma quote_data_size yf n symbolList :
  NoDup symbolList → "__proto__" ∉ symbolList →
  size (assign_all ∅ (quote_pairs yf n symbolList)) = length symbolList.
Proof.
  intros Hnd Hp. rewrite assign_all_size.
  - rewrite map_size_empty. unfold quote_pairs. by rewrite length_imap.
  - by rewrite quote_pairs_symbols.
  - by rewrite quote_pairs_symbols.
  - intros. apply lookup_empty.
Qed.

(** C1, as amended. After a miss, and in whatever order the calls
    complete, the quote route answers with one slot for every distinct
    symbol of the list other than [__proto__]; the slot of a symbol is
    the value or the error marker that the call of its last position
    earns; and a list of N pairwise distinct symbols, none of them
    [__proto__], gets exactly N slots. *)
Theorem quote_one_slot_per_distinct_symbol E yf now later order symbols w :
  let symbolList := symbolList_of symbols in
  misses E now ("quote:" +:+ symbols) w →
  Permutation order (seq 0 (length symbolList)) →
  ∃ data,
    (quote_route E yf now later order symbols w).2
    = Some {| status := 200; json := QuoteData data |}
    ∧ (∀ s, is_Some (data !! s) ↔ s ∈ symbolList ∧ s ≠ "__proto__")
    ∧ (∀ i symbol,
         symbolList !! i = Some symbol → symbol ≠ "__proto__" →
         (∀ j, (i < j)%nat → symbolList !! j ≠ Some symbol) →
         data !! symbol
         = Some (quote_slot (quoteSummary yf (issued w + i) (Js.trim symbol))))
    ∧ (NoDup symbolList → "__proto__" ∉ symbolList → size data = length symbolList).
Proof.
  intros symbolList Hm Hp.
  destruct (quote_route_done E yf now later order symbols w Hm) as (w' & Hr & _).
  { by apply permutation_covers. }
  eexists. rewrite Hr. split; [reflexivity|]. split; [|split].
  - apply quote_data_dom.
  - apply quote_data_last.
  - apply quote_data_size.
Qed.

(** C2. After a miss, and in whatever order the chart calls complete,
    the history route answers with one slot per position of the symbol
    list, the slot at a position being the one the call for the symbol
    at that position earns. *)
Theorem history_output_follows_input_order
    E yf cal now later order symbols period interval w :
  let symbolList := symbolList_of symbols in
  let opts := history_options cal now (default "1y" period) (default "1d" interval) in
  misses E now (history_cacheKey symbols (default "1y" period) (default "1d" interval)) w →
  Permutation order (seq 0 (length symbolList)) →
  ∃ data,
    (history_route E yf cal now later order symbols period interval w).2
    = Some {| status := 200; json := HistoryData data |}
    ∧ length data = length symbolList
    ∧ ∀ i symbol,
        symbolList !! i = Some symbol →
        data !! i = Some (history_slot (chart yf (issued w + i) symbol opts)).
Proof.
  intros symbolList opts Hm Hp.
  destruct (history_route_done E yf cal now later order symbols period interval w Hm)
    as (w' & Hr & _).
  { by apply permutation_covers. }
  eexists. rewrite Hr. split; [reflexivity|]. split.
  - unfold history_data. apply length_imap.
  - intros i symbol Hi. unfold symbolList in Hi. unfold history_data.
    by rewrite list_lookup_imap, Hi.
Qed.

(** C3, as amended. A call that fails neither stops the other calls nor
    the aggregation: after a miss both routes issue all their calls and
    answer 200.  In the history aggregate every position gets the slot
    of its own call, and the slot of a failed call is [null], which
    carries no message.  The quote aggregate is keyed by symbol: the
    slot of a symbol other than [__proto__] is that of the call at the
    last position where the symbol occurs, the error marker with the
    message of the failure when that call failed and the value when it
    succeeded; so when the symbols are pairwise distinct every failed
    call has its marker and every other call its value. *)
Theorem failed_call_fills_its_own_slot
    E yf cal now later order symbols period interval w :
  let symbolList := symbolList_of symbols in
  let opts := history_options cal now (default "1y" period) (default "1d" interval) in
  Permutation order (seq 0 (length symbolList)) →
  (misses E now ("quote:" +:+ symbols) w →
   ∃ w' data,
     quote_route E yf now later order symbols w
     = (w', Some {| status := 200; json := QuoteData data |})
     ∧ issued w' = (issued w + length symbolList)%nat
     ∧ ∀ i symbol,
         symbolList !! i = Some symbol → symbol ≠ "__proto__" →
         (∀ j, (i < j)%nat → symbolList !! j ≠ Some symbol) →
         match quoteSummary yf (issued w + i) (Js.trim symbol) with
         | Rejected message => data !! symbol = Some (ErrorMarker message)
         | Fulfilled value => data !! symbol = Some (Value value)
         end)
  ∧ (misses E now
       (history_cacheKey symbols (default "1y" period) (default "1d" interval)) w →
     ∃ w' data,
       history_route E yf cal now later order symbols period interval w
       = (w', Some {| status := 200; json := HistoryData data |})
       ∧ issued w' = (issued w + length symbolList)%nat
       ∧ length data = length symbolList
       ∧ ∀ i symbol,
           symbolList !! i = Some symbol →
           match chart yf (issued w + i) symbol opts with
           | Rejected message => data !! i = Some None
           | Fulfilled value => data !! i = Some (Some (quotes value))
           end).
Proof.
  intros symbolList opts Hp.
  assert (covers order (length symbolList)) as Hc by (by apply permutation_covers).
  split; intros Hm.
  - destruct (quote_route_done E yf now later order symbols w Hm Hc) as (w' & Hr & Hn).
    eexists w', _. split; [exact Hr|]. split; [exact Hn|].
    intros i symbol Hi Hproto Hlast.
    pose proof (quote_data_last yf (issued w) _ i symbol Hi Hproto Hlast) as Hslot.
    by destruct (quoteSummary yf (issued w + i) (Js.trim symbol)).
  - destruct (history_route_done E yf cal now later order symbols period interval w Hm Hc)
      as (w' & Hr & Hn).
    eexists w', _. split; [exact Hr|]. split; [exact Hn|]. split.
    + unfold history_data. apply length_imap.
    + intros i symbol Hi. unfold symbolList in Hi. unfold history_data.
      rewrite list_lookup_imap, Hi. cbn.
      fold opts. by destruct (chart yf (issued w + i) symbol opts).
Qed.

End Aggregates.

(** ** The configuration and the cache store *)

(** C10. Caching is disabled by the exact text [false] and by nothing
    else: an unset variable and any other text, such as [FALSE],
    [False], [0] or [no], leave it enabled. *)
Theorem cache_enabled_unless_exactly_false (e : Config.env) :
  (Config.CACHE_ENABLED e = false ↔ Config.env_CACHE_ENABLED e = Some "false")
  ∧ Forall
      (λ v, Config.CACHE_ENABLED
              {| Config.env_CACHE_ENABLED := v;
                 Config.env_CACHE_TTL := Config.env_CACHE_TTL e |} = true)
      [None; Some "FALSE"; Some "False"; Some "0"; Some "no"; Some EmptyString;
       Some " false"; Some "false "; Some "true"].
Proof.
  split.
  - unfold Config.CACHE_ENABLED. rewrite negb_false_iff. apply bool_decide_eq_true.
  - repeat constructor.
Qed.

Lemma CACHE_TTL_default (e : Config.env) :
  Config.env_CACHE_TTL e = None → Config.CACHE_TTL e = 300.
Proof. unfold Config.CACHE_TTL. by intros ->. Qed.

(** C6. The store never answers with an entry that has expired: at a
    time [now] with [expiresAt <= now] the lookup reports absent, and
    whatever a lookup returns is the value of an entry still alive.  A
    value set at [t] expires [ttl] seconds later, the default of the
    instance when no [ttl] is given, and that default is 300 seconds
    when CACHE_TTL is not set. *)
Theorem cache_store_never_stale {A} (e : Config.env) (c : Cache.t A)
    (key : string) (v : A) (t now : Z) :
  (∀ en, Cache.entries c !! key = Some en → Cache.expiresAt en <= now →
         Cache.get now key c = None)
  ∧ (∀ x, Cache.get now key c = Some x →
          ∃ en, Cache.entries c !! key = Some en ∧ Cache.value en = x
                ∧ now < Cache.expiresAt en)
  ∧ (∀ ttl, Cache.entries (Cache.set t key v ttl c) !! key
            = Some {| Cache.value := v;
                      Cache.expiresAt := t + 1000 * default (Cache.stdTTL c) ttl |})
  ∧ (Config.env_CACHE_TTL e = None →
     Cache.stdTTL (Cache.cache (A:=A) e) = 300
     ∧ Cache.get now key (Cache.set t key v None (Cache.cache e))
       = if now <? t + 1000 * 300 then Some v else None).
Proof.
  split; [|split; [|split]].
  - intros en Hen Hexp. unfold Cache.get. rewrite Hen.
    by rewrite (proj2 (Z.ltb_ge _ _)).
  - apply cache_get_Some.
  - intros ttl. unfold Cache.set. cbn. apply lookup_insert_eq.
  - intros Hunset. unfold Cache.cache. rewrite cache_get_set. cbn.
    by rewrite (CACHE_TTL_default e Hunset).
Qed.

(** ** The cache keys *)

Lemma colon_free_cons a s : colon_free (String a s) ↔ a ≠ ":"%char ∧ colon_free s.
Proof.
  unfold colon_free. cbn. rewrite not_elem_of_cons. split; intros [? ?]; done.
Qed.

Lemma append_nil (s : string) : EmptyString +:+ s = s.
Proof. reflexivity. Qed.

Lemma append_cons (a : ascii) (s r : string) : String a s +:+ r = String a (s +:+ r).
Proof. reflexivity. Qed.

(** A text up to its first colon, and the rest, are determined by the
    whole. *)
Lemma colon_split s : ∀ s' r r',
  colon_free s → colon_free s' →
  s +:+ ":" +:+ r = s' +:+ ":" +:+ r' → s = s' ∧ r = r'.
Proof.
  induction s as [|a s IH]; intros [|a' s'] r r' Hs Hs' Heq;
    repeat (rewrite append_nil in Heq || rewrite append_cons in Heq).
  - by injection Heq as ->.
  - injection Heq as <- _. by apply colon_free_cons in Hs' as [? _].
  - injection Heq as -> _. by apply colon_free_cons in Hs as [? _].
  - injection Heq as <- Heq.
    apply colon_free_cons in Hs as [_ Hs]. apply colon_free_cons in Hs' as [_ Hs'].
    destruct (IH s' r r' Hs Hs' Heq) as [-> ->]. done.
Qed.

Lemma to_int_proper (n : Z) : Z.to_int n ≠ Decimal.Pos Decimal.Nil ∧ Z.to_int n ≠ Decimal.Neg Decimal.Nil.
Proof.
  destruct n as [|p|p]; cbn; (split; [|]); try discriminate;
    intros [= H]; by apply DecimalPos.Unsigned.to_uint_nonnil in H.
Qed.

Lemma number_to_string_inj (a b : Z) :
  Js.number_to_string a = Js.number_to_string b → a = b.
Proof.
  intros Heq. rewrite <- (DecimalZ.of_to a), <- (DecimalZ.of_to b). f_equal.
  assert (∀ n, NilZero.int_of_string (Js.number_to_string n) = Some (Z.to_int n)) as Hback.
  { intros n. apply NilZero.isi; apply to_int_proper. }
  pose proof (Hback a) as Ha. rewrite Heq, Hback in Ha. congruence.
Qed.

Lemma validTypes_colon_free type : type ∈ validTypes → colon_free type.
Proof.
  unfold validTypes. intros Hin.
  repeat (apply elem_of_cons in Hin as [->|Hin];
          [apply (bool_decide_unpack _); by vm_compute|]).
  by apply elem_of_nil in Hin.
Qed.

(** C7, as amended. The cache key is a function of the parameters, and
    it tells requests apart as long as the parameters that precede a
    separator hold no colon themselves: two history requests whose
    symbols and periods are free of colons have the same key exactly
    when symbols, period and interval are the same, and two screener
    requests of valid types have the same key exactly when type and
    count are the same. *)
Theorem cacheKey_tells_requests_apart
    (symbols period interval symbols' period' interval' type type' : string)
    (count count' : Z) :
  colon_free symbols → colon_free period →
  colon_free symbols' → colon_free period' →
  type ∈ validTypes → type' ∈ validTypes →
  (history_cacheKey symbols period interval = history_cacheKey symbols' period' interval'
   ↔ (symbols, period, interval) = (symbols', period', interval'))
  ∧ (screener_cacheKey type count = screener_cacheKey type' count'
     ↔ (type, count) = (type', count')).
Proof.
  intros Hs Hp Hs' Hp' Ht Ht'. split; (split; [|by intros [= -> -> ->] || by intros [= -> ->]]).
  - unfold history_cacheKey. intros Heq.
    apply (inj (String.app "history:")) in Heq.
    apply colon_split in Heq as [-> Heq]; [|done..].
    apply colon_split in Heq as [-> ->]; done.
  - unfold screener_cacheKey. intros Heq.
    apply (inj (String.app "screener:")) in Heq.
    apply colon_split in Heq as [-> Heq]; [|by apply validTypes_colon_free..].
    by apply number_to_string_inj in Heq as ->.
Qed.

(** ** The screener route *)

Section Screener.

Context {V Q : Type}.
Implicit Types (yf : yahoo V Q) (w : world V Q).

(** A type outside the list is turned down at once: the response is the
    only event, so no provider call is made and the cache is neither
    read nor written. *)
Lemma screener_rejects_unknown_type E yf now later completes type query_count w :
  type ∉ validTypes →
  ∃ message,
    screener_route E yf now later completes type query_count w
    = ({| cache := cache w; issued := issued w; trace := trace w ++ [Respond 400] |},
       Some {| status := 400; json := ErrorBody message |}).
Proof.
  intros Hty. unfold screener_route, Js.includes.
  rewrite bool_decide_eq_false_2 by done. cbn. by eexists.
Qed.

Lemma screener_count_default (query_count : option string) :
  Js.parseInt query_count = None → screener_count query_count = 25.
Proof. unfold screener_count. by intros ->. Qed.

Lemma screener_count_absent : screener_count None = 25.
Proof. reflexivity. Qed.

(** With a count that is not negative, at most [min(count, 100)] quotes
    are kept. *)
Lemma slicedResult_at_most (count : Z) (result : screener_result V) :
  0 <= count →
  ∃ kept, scr_quotes (slicedResult count result) = Some kept
          ∧ Z.of_nat (length kept) <= Z.min count 100.
Proof.
  intros Hc. eexists. split; [reflexivity|].
  unfold Js.slice0. rewrite (proj2 (Z.ltb_ge _ _)) by lia.
  rewrite length_take. lia.
Qed.

End Screener.

(** C9, at the failing input.  For [GET /screener/day_gainers?count=-1]
    the count is -1 and the slice drops the last quote of the three the
    provider returns: two quotes are sent, more than [min(count, 100)]. *)
Theorem screener_negative_count_exceeds_limit :
  screener_count (Some "-1") = -1
  ∧ (screener_route false (sample_yahoo not_found) 0 0 true "day_gainers" (Some "-1")
       fresh_world).2
    = Some {| status := 200;
              json := ScreenerData {| scr_quotes := Some ["AAPL"; "MSFT"];
                                      scr_rest := "day_gainers" |} |}
  ∧ ¬ (Z.of_nat (length ["AAPL"; "MSFT"]) <= Z.min (screener_count (Some "-1")) 100).
Proof.
  split; [reflexivity|]. split; [reflexivity|]. vm_compute. intros H. by apply H.
Qed.

(** ** The symbol list *)

Lemma split_go_nonempty sep : ∀ s cur, Js.split_go sep cur s ≠ [].
Proof.
  induction s as [|c s IH]; intros cur; cbn; [done|].
  destruct (Ascii.eqb c sep); [done | apply IH].
Qed.

(** The list of symbols of a request is never empty. *)
Lemma symbolList_of_nonempty symbols : (0 < length (symbolList_of symbols))%nat.
Proof.
  unfold symbolList_of, Js.split. rewrite length_fmap.
  pose proof (split_go_nonempty "," symbols EmptyString) as Hne.
  destruct (Js.split_go "," EmptyString symbols); [done | cbn; lia].
Qed.

(** ** The statements at concrete requests *)

Lemma quote_one_slot_per_distinct_symbol_witness :
  ∃ data,
    (quote_route true (sample_yahoo not_found) 1000 1005 [2; 0; 1]%nat
       "AAPL, GOOGL,BADSYM" fresh_world).2
    = Some {| status := 200; json := QuoteData data |}
    ∧ data !! "AAPL" = Some (Value "data for AAPL")
    ∧ data !! "GOOGL" = Some (Value "data for GOOGL")
    ∧ data !! "BADSYM" = Some (ErrorMarker "Not found")
    ∧ size data = 3%nat.
Proof.
  destruct (quote_one_slot_per_distinct_symbol true (sample_yahoo not_found) 1000 1005
              [2; 0; 1]%nat "AAPL, GOOGL,BADSYM" fresh_world)
    as (data & Hr & _ & Hslot & Hsize).
  - right. reflexivity.
  - apply (bool_decide_unpack _). by vm_compute.
  - exists data. split; [exact Hr|]. split; [|split; [|split]].
    + apply (Hslot 0%nat "AAPL"); [reflexivity | discriminate |].
      intros [|[|[|j]]] Hj; (lia || discriminate).
    + apply (Hslot 1%nat "GOOGL"); [reflexivity | discriminate |].
      intros [|[|[|j]]] Hj; (lia || discriminate).
    + apply (Hslot 2%nat "BADSYM"); [reflexivity | discriminate |].
      intros [|[|[|j]]] Hj; (lia || discriminate).
    + apply Hsize.
      * apply (bool_decide_unpack _). by vm_compute.
      * apply (bool_decide_unpack _). by vm_compute.
Defined.

(** C1 as stated fails on a repeated symbol: the two positions of
    [AAPL,AAPL] share the one property [AAPL] of the aggregate. *)
Lemma quote_duplicate_symbols_share_a_slot :
  length (symbolList_of "AAPL,AAPL") = 2%nat
  ∧ ∃ data,
      (quote_route false (sample_yahoo not_found) 0 0 [0; 1]%nat "AAPL,AAPL" fresh_world).2
      = Some {| status := 200; json := QuoteData data |}
      ∧ size data = 1%nat.
Proof.
  split; [reflexivity|]. eexists. split; [reflexivity|]. reflexivity.
Qed.

Lemma history_output_follows_input_order_witness :
  ∃ data,
    (history_route false (sample_yahoo not_found) (dates (sample_runtime not_found))
       1000 1005 [1; 0]%nat "A,BADSYM" None (Some "1d") fresh_world).2
    = Some {| status := 200; json := HistoryData data |}
    ∧ length data = 2%nat
    ∧ data !! 0%nat = Some (Some [0])
    ∧ data !! 1%nat = Some None.
Proof.
  destruct (history_output_follows_input_order false (sample_yahoo not_found)
              (dates (sample_runtime not_found)) 1000 1005 [1; 0]%nat "A,BADSYM"
              None (Some "1d") fresh_world)
    as (data & Hr & Hlen & Hslot).
  - left. reflexivity.
  - apply (bool_decide_unpack _). by vm_compute.
  - exists data. split; [exact Hr|]. split; [exact Hlen|]. split.
    + apply (Hslot 0%nat "A"). reflexivity.
    + apply (Hslot 1%nat "BADSYM"). reflexivity.
Defined.

(** C3 as stated fails in the history aggregate: whatever the message of
    the failure, the slot of the failed call is [null]. *)
Lemma history_failure_leaves_no_message :
  let run message :=
    (history_route false (sample_yahoo (λ _, Some message))
       (dates (sample_runtime not_found)) 0 0 [0]%nat "BADSYM" None None fresh_world).2 in
  "Not found" ≠ "Timeout"
  ∧ run "Not found" = Some {| status := 200; json := HistoryData [None] |}
  ∧ run "Timeout" = Some {| status := 200; json := HistoryData [None] |}.
Proof.
  split; [discriminate|]. split; reflexivity.
Qed.

Lemma failed_call_fills_its_own_slot_witness :
  (∃ w' data,
     quote_route false (sample_yahoo not_found) 1000 1005 [1; 0]%nat "A,BADSYM" fresh_world
     = (w', Some {| status := 200; json := QuoteData data |})
     ∧ issued w' = 2%nat
     ∧ data !! "A" = Some (Value "data for A")
     ∧ data !! "BADSYM" = Some (ErrorMarker "Not found"))
  ∧ (∃ w' data,
       history_route false (sample_yahoo not_found) (dates (sample_runtime not_found))
         1000 1005 [1; 0]%nat "A,BADSYM" None None fresh_world
       = (w', Some {| status := 200; json := HistoryData data |})
       ∧ issued w' = 2%nat
       ∧ data !! 0%nat = Some (Some [0])
       ∧ data !! 1%nat = Some None).
Proof.
  destruct (failed_call_fills_its_own_slot false (sample_yahoo not_found)
              (dates (sample_runtime not_found)) 1000 1005 [1; 0]%nat "A,BADSYM"
              None None fresh_world) as [Hquote Hhistory].
  - apply (bool_decide_unpack _). by vm_compute.
  - split.
    + destruct Hquote as (w' & data & Hr & Hn & Hslot); [left; reflexivity|].
      exists w', data. split; [exact Hr|]. split; [exact Hn|]. split.
      * apply (Hslot 0%nat "A"); [reflexivity | discriminate |].
        intros [|[|j]] Hj; (lia || discriminate).
      * apply (Hslot 1%nat "BADSYM"); [reflexivity | discriminate |].
        intros [|[|j]] Hj; (lia || discriminate).
    + destruct Hhistory as (w' & data & Hr & Hn & _ & Hslot); [left; reflexivity|].
      exists w', data. split; [exact Hr|]. split; [exact Hn|]. split.
      * apply (Hslot 0%nat "A"). reflexivity.
      * apply (Hslot 1%nat "BADSYM"). reflexivity.
Defined.

Lemma fanout_written_once_all_settled_witness :
  let rt := sample_runtime (λ _, Some "Timeout") in
  let t := {| t_request := 1000; t_resume := 1005; completion := [1; 0]%nat;
              completes := true |} in
  let req := GetQuote "AAPL,MSFT" in
  ∃ data,
    aggregate rt 0 1000 req = Some data
    ∧ (handle true rt t req fresh_world).2 = Some {| status := 200; json := data |}
    ∧ Cache.get 301004 "quote:AAPL,MSFT" (cache (handle true rt t req fresh_world).1)
      = Some data.
Proof.
  intros rt t req.
  destruct (fanout_written_once_all_settled rt t req (symbolList_of "AAPL,MSFT")
              fresh_world (handle true rt t req fresh_world).1
              (handle true rt t req fresh_world).2)
    as (evs & _ & _ & _ & Hstored).
  - reflexivity.
  - apply surjective_pairing.
  - destruct Hstored as (data & Hagg & Hr & Hget).
    + reflexivity.
    + intros i Hi. apply (bool_decide_unpack _). revert i Hi.
      intros [|[|i]] Hi; [by vm_compute..|]. cbn in Hi. lia.
    + exists data. split; [exact Hagg|]. split; [exact Hr|].
      apply Hget. reflexivity.
Defined.

Lemma cache_hit_idempotent_witness :
  let rt := sample_runtime not_found in
  let t1 := {| t_request := 1000; t_resume := 1005; completion := [2; 0; 1]%nat;
               completes := true |} in
  let t2 := {| t_request := 200000; t_resume := 200007; completion := [0; 1; 2]%nat;
               completes := true |} in
  let req := GetQuote "AAPL, GOOGL,BADSYM" in
  let first := handle true rt t1 req fresh_world in
  ∃ r1 evs,
    first.2 = Some r1
    ∧ handle true rt t2 req first.1
      = ({| cache := cache first.1; issued := issued first.1;
            trace := trace first.1 ++ evs |}, Some r1)
    ∧ provider_calls evs = [].
Proof.
  intros rt t1 t2 req first.
  destruct first as [w1 [r1|]] eqn:Hfirst; [|by vm_compute in Hfirst].
  destruct (cache_hit_idempotent rt t1 t2 req fresh_world w1 r1) as (evs & Hsecond & Hcalls).
  - exact Hfirst.
  - left. by eexists.
  - vm_compute in Hfirst. injection Hfirst as <- _. intros e He.
    vm_compute in He. injection He as <-. reflexivity.
  - exists r1, evs. split; [reflexivity|]. split; [exact Hsecond | exact Hcalls].
Defined.

Lemma cache_store_never_stale_witness :
  let c := Cache.set 0 "quote:AAPL" 7%nat None (Cache.create 300) in
  Cache.get 299999 "quote:AAPL" c = Some 7%nat
  ∧ Cache.get 300000 "quote:AAPL" c = None
  ∧ Cache.stdTTL
      (Cache.cache (A:=nat)
         {| Config.env_CACHE_ENABLED := None; Config.env_CACHE_TTL := None |}) = 300.
Proof.
  intros c. split; [reflexivity|]. split.
  - destruct (cache_store_never_stale
                {| Config.env_CACHE_ENABLED := None; Config.env_CACHE_TTL := None |}
                c "quote:AAPL" 8%nat 10 300000) as (Hstale & _).
    apply (Hstale {| Cache.value := 7%nat; Cache.expiresAt := 300000 |}).
    + reflexivity.
    + cbn. lia.
  - destruct (cache_store_never_stale
                {| Config.env_CACHE_ENABLED := None; Config.env_CACHE_TTL := None |}
                c "quote:AAPL" 8%nat 10 300000) as (_ & _ & _ & Hdefault).
    destruct Hdefault as [Httl _]; [reflexivity|]. exact Httl.
Defined.

(** C7 as stated fails for history keys: the symbols [A:1y] with the
    period [1d] and the symbol [A] with the period [1y:1d] are requests
    for different data under one key, so that the second is answered
    from the entry of the first. *)
Lemma history_cacheKey_collision :
  let rt := sample_runtime (λ s, if decide (s = "A") then None else Some "Not found") in
  let t := {| t_request := 1000; t_resume := 1005; completion := [0]%nat;
              completes := true |} in
  let req1 := GetHistory "A:1y" (Some "1d") (Some "1d") in
  let req2 := GetHistory "A" (Some "1y:1d") (Some "1d") in
  ("A:1y", "1d", "1d") ≠ ("A", "1y:1d", "1d")
  ∧ history_cacheKey "A:1y" "1d" "1d" = history_cacheKey "A" "1y:1d" "1d"
  ∧ (handle true rt t req2 fresh_world).2 ≠ (handle true rt t req1 fresh_world).2
  ∧ (handle true rt t req2 (handle true rt t req1 fresh_world).1).2
    = (handle true rt t req1 fresh_world).2.
Proof.
  intros rt t req1 req2. split; [discriminate|]. split; [reflexivity|].
  split; [vm_compute; discriminate | reflexivity].
Qed.

Lemma cacheKey_tells_requests_apart_witness :
  history_cacheKey "AAPL,MSFT" "1y" "1d" ≠ history_cacheKey "AAPL" "1mo" "1d"
  ∧ screener_cacheKey "day_gainers" 25 ≠ screener_cacheKey "day_gainers" 50
  ∧ screener_cacheKey "day_losers" 25 = "screener:day_losers:25".
Proof.
  destruct (cacheKey_tells_requests_apart "AAPL,MSFT" "1y" "1d" "AAPL" "1mo" "1d"
              "day_gainers" "day_gainers" 25 50) as [Hhistory Hscreener].
  - apply (bool_decide_unpack _). by vm_compute.
  - apply (bool_decide_unpack _). by vm_compute.
  - apply (bool_decide_unpack _). by vm_compute.
  - apply (bool_decide_unpack _). by vm_compute.
  - apply (bool_decide_unpack _). by vm_compute.
  - apply (bool_decide_unpack _). by vm_compute.
  - split; [|split; [|reflexivity]].
    + intros Heq. apply Hhistory in Heq. discriminate Heq.
    + intros Heq. apply Hscreener in Heq. discriminate Heq.
Defined.

(** ** Scenarios *)

(** Two requests for [AAPL] within the time to live: the second is
    answered from the cache and the provider is called once. *)
Example scenario_two_lookups_within_ttl :
  let rt := sample_runtime not_found in
  let t1 := {| t_request := 0; t_resume := 40; completion := [0]%nat; completes := true |} in
  let t2 := {| t_request := 299000; t_resume := 299040; completion := [0]%nat;
               completes := true |} in
  let first := handle true rt t1 (GetQuote "AAPL") fresh_world in
  let second := handle true rt t2 (GetQuote "AAPL") first.1 in
  second.2 = first.2
  ∧ issued second.1 = 1%nat
  ∧ trace second.1
    = [CacheGet "quote:AAPL"; Call (CallQuoteSummary "AAPL"); Settle 0;
       CacheSet "quote:AAPL"; Respond 200; CacheGet "quote:AAPL"; Respond 200].
Proof. repeat split. Qed.

(** The same two requests once the time to live has passed: the second
    misses and fans out again. *)
Example scenario_lookup_after_expiry :
  let rt := sample_runtime not_found in
  let t1 := {| t_request := 0; t_resume := 40; completion := [0]%nat; completes := true |} in
  let t2 := {| t_request := 300040; t_resume := 300080; completion := [0]%nat;
               completes := true |} in
  let first := handle true rt t1 (GetQuote "AAPL") fresh_world in
  let second := handle true rt t2 (GetQuote "AAPL") first.1 in
  issued second.1 = 2%nat
  ∧ provider_calls (trace second.1) = [CallQuoteSummary "AAPL"; CallQuoteSummary "AAPL"].
Proof. repeat split. Qed.

(** With the cache disabled both requests go to the provider. *)
Example scenario_cache_disabled :
  let rt := sample_runtime not_found in
  let t := {| t_request := 0; t_resume := 40; completion := [0]%nat; completes := true |} in
  let first := handle false rt t (GetQuote "AAPL") fresh_world in
  let second := handle false rt t (GetQuote "AAPL") first.1 in
  cache second.1 = cache fresh_world
  ∧ trace second.1
    = [Call (CallQuoteSummary "AAPL"); Settle 0; Respond 200;
       Call (CallQuoteSummary "AAPL"); Settle 0; Respond 200].
Proof. repeat split. Qed.

(** A handler whose call for [GOOGL] never settles sends nothing and
    stores nothing. *)
Example scenario_outstanding_call :
  let rt := sample_runtime not_found in
  let t := {| t_request := 0; t_resume := 40; completion := [0]%nat; completes := true |} in
  let run := handle true rt t (GetQuote "AAPL,GOOGL") fresh_world in
  run.2 = None
  ∧ cache run.1 = cache fresh_world
  ∧ trace run.1
    = [CacheGet "quote:AAPL,GOOGL"; Call (CallQuoteSummary "AAPL");
       Call (CallQuoteSummary "GOOGL"); Settle 0].
Proof. repeat split. Qed.

(** A route of one call whose call fails answers 500 and stores
    nothing, so that the next request calls the provider again. *)
Example scenario_single_call_failure :
  let rt := sample_runtime not_found in
  let t := {| t_request := 0; t_resume := 40; completion := []; completes := true |} in
  let first := handle true rt t (GetSearch "BADSYM") fresh_world in
  let second := handle true rt t (GetSearch "BADSYM") first.1 in
  first.2 = Some {| status := 500; json := ErrorBody "Not found" |}
  ∧ cache first.1 = cache fresh_world
  ∧ issued second.1 = 2%nat.
Proof. repeat split. Qed.

(** ** Further properties of the routes *)

Section MoreCaching.

Context {V Q : Type}.
Implicit Types (yf : yahoo V Q) (w : world V Q) (rt : runtime V Q) (req : @request).

Ltac peel_prefix H :=
  unfold history_cacheKey, screener_cacheKey in H;
  repeat (rewrite append_cons in H || rewrite append_nil in H).

Lemma cacheKey_same_route rt req req' :
  cacheKey_of rt req = cacheKey_of rt req' → same_route req req'.
Proof.
  destruct req, req'; cbn [cacheKey_of same_route]; intros H;
    try (peel_prefix H; discriminate H); done.
Qed.

(** X1. The cache keys of different routes are never equal, so that no
    route is answered from the entry of another; and for the routes
    whose key is the raw path parameter (quote, info, search) two
    requests with one key are the same request. *)
Theorem cacheKey_routes_apart rt req req' :
  cacheKey_of rt req = cacheKey_of rt req' →
  same_route req req'
  ∧ match req with
    | GetQuote _ | GetInfo _ | GetSearch _ => req = req'
    | _ => True
    end.
Proof.
  intros H. split; [by eapply cacheKey_same_route|].
  pose proof (cacheKey_same_route rt req req' H) as Hs.
  destruct req, req'; try done; cbn [cacheKey_of] in H.
  - by apply (inj (String.app "quote:")) in H as ->.
  - by apply (inj (String.app "info:")) in H as ->.
  - by apply (inj (String.app "search:")) in H as ->.
Qed.

(** X2. A request whose key has no entry, or an expired one, is served
    by the provider again: the handler issues all the calls of its
    fan-out, and the result it answers with replaces the entry, to
    expire one time to live after the write. *)
Theorem expired_entry_fans_out_again rt (t : timing) req w w' r :
  handle true rt t req w = (w', r) →
  (∀ e, Cache.entries (cache w) !! cacheKey_of rt req = Some e →
        Cache.expiresAt e <= t_request t) →
  issued w' = (issued w + fanout_size req)%nat
  ∧ (∃ evs, trace w' = trace w ++ evs ∧ length (provider_calls evs) = fanout_size req)
  ∧ ∀ data, r = Some {| status := 200; json := data |} →
      Cache.entries (cache w') !! cacheKey_of rt req
      = Some {| Cache.value := data;
                Cache.expiresAt := t_resume t + 1000 * Cache.stdTTL (cache w) |}.
Proof.
  intros H Hexp.
  assert (Cache.get (t_request t) (cacheKey_of rt req) (cache w) = None) as Hget.
  { unfold Cache.get. destruct (Cache.entries (cache w) !! cacheKey_of rt req) as [e|] eqn:He;
      [|done]. rewrite (proj2 (Z.ltb_ge _ _)); [done|]. by apply Hexp. }
  destruct (handle_cases rt req) as [[Hn Hrej]|Hserved].
  - destruct (Hrej true t w) as [m Hm]. rewrite Hm in H. unfold respond, emit in H.
    injection H as <- <-. rewrite Hn. cbn. split; [lia|]. split; [by exists [Respond 400]|].
    intros data [=].
  - destruct (Hserved true t) as (block & Hb & Hh). rewrite Hh in H.
    rewrite cached_route_miss in H by done.
    destruct (Hb (emit [CacheGet (cacheKey_of rt req)] w)) as (res & evs & Hbw & _ & Hcalls).
    rewrite Hbw in H. unfold provider_calls in *.
    destruct res as [|data|message]; unfold respond, cache_set, emit in H; cbn in H;
      injection H as <- <-; cbn; (split; [done|]); split.
    + exists ([CacheGet (cacheKey_of rt req)] ++ evs). split; [by rewrite <- app_assoc|].
      by rewrite omap_app.
    + intros data [=].
    + exists ([CacheGet (cacheKey_of rt req)] ++ evs ++ [CacheSet (cacheKey_of rt req)]
                ++ [Respond 200]).
      split; [by rewrite <- !app_assoc|].
      rewrite !omap_app, !length_app. cbn. lia.
    + intros data' [= <-]. apply lookup_insert_eq.
    + exists ([CacheGet (cacheKey_of rt req)] ++ evs ++ [Respond 500]).
      split; [by rewrite <- !app_assoc|].
      rewrite !omap_app, !length_app. cbn. lia.
    + intros data [=].
Qed.

Lemma handle_store_change E rt (t : timing) req w w' r :
  handle E rt t req w = (w', r) →
  cache w' = cache w
  ∨ (E = true
     ∧ Cache.get (t_request t) (cacheKey_of rt req) (cache w) = None
     ∧ ∃ data, r = Some {| status := 200; json := data |}
               ∧ cache w' = Cache.set (t_resume t) (cacheKey_of rt req) data None (cache w)).
Proof.
  intros H.
  destruct (handle_cases rt req) as [[_ Hrej]|Hserved].
  - destruct (Hrej E t w) as [m Hm]. rewrite Hm in H. unfold respond in H.
    injection H as <- _. by left.
  - destruct (Hserved E t) as (block & Hb & Hh). rewrite Hh in H. destruct E.
    + destruct (Cache.get (t_request t) (cacheKey_of rt req) (cache w)) as [c|] eqn:Hget.
      * rewrite (cached_route_hit _ _ _ _ _ c) in H by done. injection H as <- _. by left.
      * rewrite cached_route_miss in H by done.
        destruct (Hb (emit [CacheGet (cacheKey_of rt req)] w)) as (res & evs & Hbw & _).
        rewrite Hbw in H.
        destruct res as [|data|message]; unfold respond, cache_set, emit in H; cbn in H;
          injection H as <- <-; [by left| |by left].
        right. split; [done|]. split; [done|]. by exists data.
    + destruct (cached_route_disabled (t_request t) (t_resume t) (cacheKey_of rt req)
                  block _ w Hb) as (r0 & evs & Hr & _).
      rewrite Hr in H. injection H as <- _. by left.
Qed.

(** X3. The store changes only when a result is answered after a miss,
    and then by the one entry of the request's key: a cache hit does not
    renew the entry, and neither an error response nor a handler that
    is still waiting stores anything. *)
Theorem only_results_are_stored E rt (t : timing) req w w' r :
  handle E rt t req w = (w', r) →
  cache w' = cache w
  ∨ (E = true
     ∧ Cache.get (t_request t) (cacheKey_of rt req) (cache w) = None
     ∧ ∃ data, r = Some {| status := 200; json := data |}
               ∧ cache w' = Cache.set (t_resume t) (cacheKey_of rt req) data None (cache w)).
Proof. apply handle_store_change. Qed.

(** X4. A route of one call (search, trending, recommendations,
    insights) whose call fails answers 500 with the message of the
    failure and stores nothing; one whose call succeeds answers 200 with
    what the provider resolved to and, with the cache enabled, stores it
    for the time to live. *)
Theorem single_call_answer E rt (t : timing) req op w :
  single_call rt req = Some op →
  misses E (t_request t) (cacheKey_of rt req) w →
  completes t = true →
  ∃ w',
    issued w' = S (issued w)
    ∧ match op (issued w) with
      | Rejected message =>
          handle E rt t req w = (w', Some {| status := 500; json := ErrorBody message |})
          ∧ cache w' = cache w
      | Fulfilled value =>
          handle E rt t req w = (w', Some {| status := 200; json := Result value |})
          ∧ (E = true →
             ∀ now, now < t_resume t + 1000 * Cache.stdTTL (cache w) →
                    Cache.get now (cacheKey_of rt req) (cache w') = Some (Result value))
      end.
Proof.
  intros Hop Hm Hc.
  assert (∀ kind (f : nat → string → settled V) what arg,
            cacheKey_of rt req = kind +:+ arg →
            op = (λ n, f n arg) →
            handle E rt t req w
            = cached_route E (t_request t) (t_resume t) (cacheKey_of rt req)
                (single_block f what (completes t) arg) w →
            ∃ w',
              issued w' = S (issued w)
              ∧ match op (issued w) with
                | Rejected message =>
                    handle E rt t req w
                    = (w', Some {| status := 500; json := ErrorBody message |})
                    ∧ cache w' = cache w
                | Fulfilled value =>
                    handle E rt t req w
                    = (w', Some {| status := 200; json := Result value |})
                    ∧ (E = true →
                       ∀ now, now < t_resume t + 1000 * Cache.stdTTL (cache w) →
                              Cache.get now (cacheKey_of rt req) (cache w')
                              = Some (Result value))
                end) as Hgen.
  { intros kind f what arg _ -> ->. rewrite Hc.
    destruct E.
    - destruct Hm as [?|Hget]; [done|]. rewrite cached_route_miss by done.
      unfold single_block, issue, emit. cbn.
      destruct (f (issued w) arg) as [v|m]; eexists; (split; [|split]);
        try reflexivity; try done.
      intros _ now Hnow. cbn. rewrite cache_get_set. by rewrite (proj2 (Z.ltb_lt _ _)).
    - unfold cached_route, single_block, issue, emit. cbn.
      destruct (f (issued w) arg) as [v|m]; eexists; (split; [|split]);
        try reflexivity; try done. }
  destruct req; try done; cbn in Hop; injection Hop as <-.
  - by eapply (Hgen "search:" _ CallSearch).
  - by eapply (Hgen "trending:" _ CallTrendingSymbols).
  - by eapply (Hgen "recommendations:" _ CallRecommendationsBySymbol).
  - by eapply (Hgen "insights:" _ CallInsights).
Qed.

End MoreCaching.

Section MoreRoutes.

Context {V Q : Type}.
Implicit Types (yf : yahoo V Q) (w : world V Q).

Lemma info_route_done E yf now later order symbols w :
  misses E now ("info:" +:+ symbols) w →
  covers order (length (symbolList_of symbols)) →
  ∃ w',
    info_route E yf now later order symbols w
    = (w', Some {| status := 200;
                   json := InfoData (info_data yf (issued w) (symbolList_of symbols)) |})
    ∧ issued w' = (issued w + length (symbolList_of symbols))%nat.
Proof.
  intros Hm Hc. unfold info_route.
  erewrite cached_route_done; [| done | by apply info_block_done].
  destruct E; eexists; unfold respond, cache_set, after_fanout, emit;
    (split; [reflexivity | cbn; by rewrite length_fmap]).
Qed.

(** X5. After a miss, and in whatever order the calls complete, the
    info route answers 200 with one slot per position of the symbol
    list: what the call for the symbol at that position resolved to, or
    [null] when it failed.  Every call asks for the modules
    [assetProfile] and [summaryProfile]. *)
Theorem info_output_follows_input_order E yf now later order symbols w :
  let symbolList := symbolList_of symbols in
  misses E now ("info:" +:+ symbols) w →
  Permutation order (seq 0 (length symbolList)) →
  ∃ w' data,
    info_route E yf now later order symbols w
    = (w', Some {| status := 200; json := InfoData data |})
    ∧ issued w' = (issued w + length symbolList)%nat
    ∧ length data = length symbolList
    ∧ ∀ i symbol,
        symbolList !! i = Some symbol →
        match quoteSummaryModules yf (issued w + i) symbol ["assetProfile"; "summaryProfile"] with
        | Fulfilled value => data !! i = Some (Some value)
        | Rejected _ => data !! i = Some None
        end.
Proof.
  intros symbolList Hm Hp.
  destruct (info_route_done E yf now later order symbols w Hm) as (w' & Hr & Hn).
  { by apply permutation_covers. }
  eexists w', _. split; [exact Hr|]. split; [exact Hn|]. split.
  - unfold info_data. apply length_imap.
  - intros i symbol Hi. unfold symbolList in Hi. unfold info_data.
    rewrite list_lookup_imap, Hi. cbn. unfold info_modules.
    by destruct (quoteSummaryModules yf (issued w + i) symbol _).
Qed.

Lemma days_back (now k : Z) : (now - k * day) / 1000 = now / 1000 - k * 86400.
Proof.
  unfold day.
  replace (now - k * (24 * 60 * 60 * 1000)) with (now + (- (k * 86400)) * 1000) by lia.
  rewrite Z.div_add by lia. lia.
Qed.

Lemma period_start_days (cal : calendar) (now : Z) (period : string) (days : Z) :
  (period, days) ∈ period_days → period_start cal now period = now - days * day.
Proof.
  unfold period_days. intros Hin.
  repeat (apply elem_of_cons in Hin as [[= -> ->]|Hin]; [reflexivity|]).
  by apply elem_of_nil in Hin.
Qed.

(** X6. For a period that is a number of days back, the window the
    history route asks the provider for ends at the second of the
    request and is exactly that many days long (a month being 30 days
    and a year 365).  A period the route does not know is treated as
    [1y]. *)
Theorem history_window (cal : calendar) (now : Z) (period interval : string) :
  (∀ days, (period, days) ∈ period_days →
     let opts := history_options cal now period interval in
     period2 opts = now / 1000 ∧ period2 opts - period1 opts = days * 86400)
  ∧ (period ∉ period_days.*1 ++ ["ytd"; "max"] →
     history_options cal now period interval = history_options cal now "1y" interval).
Proof.
  split.
  - intros days Hin. unfold period_days in Hin.
    cbn zeta. unfold history_options. cbn [period1 period2].
    rewrite (period_start_days cal now period days Hin), days_back. lia.
  - intros Hnot. unfold history_options. f_equal. f_equal.
    unfold period_start.
    repeat (destruct (decide (period = _)) as [->|_];
            [exfalso; apply Hnot; apply (bool_decide_unpack _); by vm_compute|]).
    reflexivity.
Qed.

(** A request served through the frame is answered 200 or 500. *)
Lemma cached_route_status E now later key
    (block : world V Q → outcome V Q * world V Q) w w' (r : response V Q) :
  cached_route E now later key block w = (w', Some r) →
  status r = 200 ∨ status r = 500.
Proof.
  unfold cached_route. destruct E.
  - unfold cache_get. destruct (Cache.get now key (cache w)) as [c|].
    + unfold respond. intros [= _ <-]. by left.
    + destruct (block _) as [[|data|message] w1]; unfold respond; intros [= _ <-];
        [by left | by right].
  - destruct (block w) as [[|data|message] w1]; unfold respond; intros [= _ <-];
      [by left | by right].
Qed.

(** X7. The screener route of routes/screener.ts answers 400 exactly
    for the types outside its list, and then the response is all it
    does: no provider call, and the cache neither read nor written. *)
Theorem screener_rejects_exactly_unknown_types
    E yf now later completes type query_count w w' (r : response V Q) :
  screener_route E yf now later completes type query_count w = (w', Some r) →
  (status r = 400 ↔ type ∉ validTypes)
  ∧ (type ∉ validTypes →
     w' = {| cache := cache w; issued := issued w; trace := trace w ++ [Respond 400] |}).
Proof.
  intros H. destruct (decide (type ∈ validTypes)) as [Hin|Hnin].
  - split; [|done]. unfold screener_route, Js.includes in H.
    rewrite bool_decide_eq_true_2 in H by done. cbn [negb] in H.
    apply cached_route_status in H as [Hs|Hs]; rewrite Hs; split; done.
  - destruct (screener_rejects_unknown_type E yf now later completes type query_count w Hnin)
      as [m Hm].
    rewrite Hm in H. injection H as <- <-. done.
Qed.

(** X8. For a valid type and a count that is not negative, after a miss
    the screener route answers with the first [min(count, 100)] quotes
    of the provider's result, in the provider's order, or with all of
    them when there are fewer; [quotes] is an array even when the
    provider's result has none. *)
Theorem screener_sends_a_prefix E yf now later type query_count w result :
  type ∈ validTypes →
  misses E now (screener_cacheKey type (screener_count query_count)) w →
  screener yf (issued w) type = Fulfilled result →
  0 <= screener_count query_count →
  ∃ w' kept,
    screener_route E yf now later true type query_count w
    = (w', Some {| status := 200;
                   json := ScreenerData {| scr_quotes := Some kept;
                                           scr_rest := scr_rest result |} |})
    ∧ kept = take (Z.to_nat (Z.min (screener_count query_count) 100))
               (default [] (scr_quotes result))
    ∧ (length kept ≤ 100)%nat.
Proof.
  intros Hty Hm Hres Hcount. unfold screener_route, Js.includes.
  rewrite bool_decide_eq_true_2 by done. cbn [negb].
  assert (slicedResult (screener_count query_count) result
          = {| scr_quotes := Some (take (Z.to_nat (Z.min (screener_count query_count) 100))
                                     (default [] (scr_quotes result)));
               scr_rest := scr_rest result |}) as Hsl.
  { unfold slicedResult, Js.slice0. rewrite (proj2 (Z.ltb_ge _ _)) by lia.
    f_equal. f_equal.
    set (arr := default [] (scr_quotes result)).
    set (e := Z.min (screener_count query_count) 100).
    destruct (Z.le_gt_cases e (Z.of_nat (length arr))) as [Hle|Hgt].
    - by rewrite Z.min_l.
    - rewrite Z.min_r by lia. rewrite Nat2Z.id.
      rewrite firstn_all. symmetry. apply take_ge. lia. }
  erewrite cached_route_done; [|done|].
  2:{ unfold screener_block, issue. cbn.
      replace (issued (if E then _ else w)) with (issued w) by (by destruct E).
      rewrite Hres, Hsl. reflexivity. }
  eexists _, _. split; [reflexivity|]. split; [reflexivity|].
  rewrite length_take. lia.
Qed.

End MoreRoutes.


(** ** Texts and numbers *)

Lemma parse_uint_acc (l : Decimal.uint) : ∀ acc : positive,
  Js.parse_digits 10 (Some (Z.pos acc)) (NilEmpty.string_of_uint l)
  = Some (Z.pos (Pos.of_uint_acc l acc)).
Proof.
  induction l; intros acc; cbn [NilEmpty.string_of_uint Js.parse_digits Pos.of_uint_acc];
    [done|..];
    (change (Js.digit_of 10 _) with (Some 0) || change (Js.digit_of 10 _) with (Some 1)
     || change (Js.digit_of 10 _) with (Some 2) || change (Js.digit_of 10 _) with (Some 3)
     || change (Js.digit_of 10 _) with (Some 4) || change (Js.digit_of 10 _) with (Some 5)
     || change (Js.digit_of 10 _) with (Some 6) || change (Js.digit_of 10 _) with (Some 7)
     || change (Js.digit_of 10 _) with (Some 8) || change (Js.digit_of 10 _) with (Some 9));
    cbn [default from_option id]; rewrite <- IHl; f_equal; f_equal; lia.
Qed.

Ltac digit_value :=
  (change (Js.digit_of 10 _) with (Some 0) || change (Js.digit_of 10 _) with (Some 1)
   || change (Js.digit_of 10 _) with (Some 2) || change (Js.digit_of 10 _) with (Some 3)
   || change (Js.digit_of 10 _) with (Some 4) || change (Js.digit_of 10 _) with (Some 5)
   || change (Js.digit_of 10 _) with (Some 6) || change (Js.digit_of 10 _) with (Some 7)
   || change (Js.digit_of 10 _) with (Some 8) || change (Js.digit_of 10 _) with (Some 9)).

Lemma parse_uint_from (l : Decimal.uint) (acc : option Z) :
  default 0 acc = 0 →
  l ≠ Decimal.Nil ∨ acc = Some 0 →
  Js.parse_digits 10 acc (NilEmpty.string_of_uint l) = Some (Z.of_N (Pos.of_uint l)).
Proof.
  revert acc. induction l; intros acc Hacc Hl;
    cbn [NilEmpty.string_of_uint Js.parse_digits Pos.of_uint];
    [by destruct Hl as [?| ->] | ..]; digit_value; rewrite Hacc;
    [apply IHl; [done | by right] | ..];
    apply (parse_uint_acc l).
Qed.

Lemma parseInt_uint (d : Decimal.uint) :
  d ≠ Decimal.Nil →
  Js.parseInt (Some (NilEmpty.string_of_uint d)) = Some (Z.of_N (Pos.of_uint d))
  ∧ Js.parseInt (Some (String "-" (NilEmpty.string_of_uint d)))
    = Some (- Z.of_N (Pos.of_uint d)).
Proof.
  intros Hd.
  pose proof (parse_uint_from d None eq_refl (or_introl Hd)) as Hp.
  destruct d as [|l|l|l|l|l|l|l|l|l|l]; [done|..]; try destruct l;
    unfold Js.parseInt; cbn [default from_option id Js.trimStart NilEmpty.string_of_uint];
    cbn [NilEmpty.string_of_uint] in Hp;
    change (Js.is_ws _) with false; cbv iota beta;
    rewrite Hp; cbn [fmap option_fmap option_map]; split; f_equal; lia.
Qed.

(** The text of an integer parses back to it. *)
Lemma parseInt_number_to_string (n : Z) :
  Js.parseInt (Some (Js.number_to_string n)) = Some n.
Proof.
  destruct n as [|p|p]; [reflexivity|..].
  - unfold Js.number_to_string. cbn [Z.to_int NilZero.string_of_int].
    pose proof (DecimalPos.Unsigned.to_uint_nonnil p) as Hnn.
    pose proof (DecimalPos.Unsigned.of_to p) as Hot.
    unfold NilZero.string_of_uint. destruct (Pos.to_uint p) eqn:Hd; [done|..];
      rewrite <- Hd in *; rewrite (proj1 (parseInt_uint _ Hnn)), Hot; done.
  - unfold Js.number_to_string. cbn [Z.to_int NilZero.string_of_int].
    pose proof (DecimalPos.Unsigned.to_uint_nonnil p) as Hnn.
    pose proof (DecimalPos.Unsigned.of_to p) as Hot.
    unfold NilZero.string_of_uint. destruct (Pos.to_uint p) eqn:Hd; [done|..];
      rewrite <- Hd in *; rewrite (proj2 (parseInt_uint _ Hnn)), Hot; done.
Qed.


(** ** The symbols of a request *)

Lemma chars_inj (s t : string) : list_ascii_of_string s = list_ascii_of_string t → s = t.
Proof.
  intros H. rewrite <- (string_of_list_ascii_of_string s), H.
  apply string_of_list_ascii_of_string.
Qed.

Lemma chars_app (s t : string) : list_ascii_of_string (s +:+ t) = list_ascii_of_string s ++ list_ascii_of_string t.
Proof. induction s as [|c s IH]; [done|]. rewrite append_cons. cbn. by rewrite IH. Qed.

Lemma chars_rev_app (s t : string) : list_ascii_of_string (String.rev_app s t) = reverse (list_ascii_of_string s) ++ list_ascii_of_string t.
Proof.
  revert t. induction s as [|c s IH]; intros t; [done|].
  cbn [String.rev_app list_ascii_of_string]. rewrite IH, reverse_cons, <- app_assoc. done.
Qed.

Lemma chars_rev (s : string) : list_ascii_of_string (String.rev s) = reverse (list_ascii_of_string s).
Proof. unfold String.rev. rewrite chars_rev_app. cbn. apply app_nil_r. Qed.

Lemma rev_rev (s : string) : String.rev (String.rev s) = s.
Proof. apply chars_inj. rewrite !chars_rev. apply reverse_involutive. Qed.

Lemma trimStart_idemp (s : string) : Js.trimStart (Js.trimStart s) = Js.trimStart s.
Proof.
  induction s as [|c s IH]; [done|]. cbn. destruct (Js.is_ws c) eqn:Hc; [done|].
  cbn. by rewrite Hc.
Qed.

Lemma trimStart_head (s : string) :
  Js.trimStart s = EmptyString
  ∨ ∃ c r, Js.trimStart s = String c r ∧ Js.is_ws c = false.
Proof.
  induction s as [|c s IH]; [by left|]. cbn. destruct (Js.is_ws c) eqn:Hc; [done|].
  right. by exists c, s.
Qed.

Lemma trimStart_sub (s : string) c : c ∈ list_ascii_of_string (Js.trimStart s) → c ∈ list_ascii_of_string s.
Proof.
  induction s as [|a s IH]; [done|]. cbn. destruct (Js.is_ws a); [|done].
  intros ?. apply elem_of_cons. right. by apply IH.
Qed.

(** What ends with a character that is no white space keeps it. *)
Lemma trimStart_keeps_last (s : string) c :
  Js.is_ws c = false →
  ∃ y, Js.trimStart (s +:+ String c EmptyString) = y +:+ String c EmptyString.
Proof.
  intros Hc. induction s as [|a s [y IH]].
  - exists EmptyString. rewrite !append_nil. cbn. by rewrite Hc.
  - rewrite append_cons. cbn. destruct (Js.is_ws a).
    + by exists y.
    + exists (String a s). by rewrite append_cons.
Qed.

Lemma trim_idemp (s : string) : Js.trim (Js.trim s) = Js.trim s.
Proof.
  unfold Js.trim, Js.trimEnd.
  set (t := Js.trimStart s). set (x := Js.trimStart (String.rev t)).
  assert (Js.trimStart (String.rev x) = String.rev x) as Hfront.
  { destruct (trimStart_head s) as [Ht|(c & r & Ht & Hc)]; fold t in Ht.
    - unfold x. by rewrite Ht.
    - assert (String.rev t = String.rev r +:+ String c EmptyString) as Hrev.
      { apply chars_inj. rewrite Ht, chars_app, !chars_rev.
        cbn [list_ascii_of_string]. by rewrite reverse_cons. }
      destruct (trimStart_keeps_last (String.rev r) c Hc) as [y Hy].
      assert (String.rev x = String c (String.rev y)) as ->.
      { unfold x. rewrite Hrev, Hy. apply chars_inj.
        rewrite chars_rev, chars_app. cbn [list_ascii_of_string]. rewrite chars_rev.
        by rewrite reverse_app. }
      cbn. by rewrite Hc. }
  rewrite Hfront, rev_rev. unfold x. by rewrite trimStart_idemp.
Qed.

Lemma trim_sub (s : string) c : c ∈ list_ascii_of_string (Js.trim s) → c ∈ list_ascii_of_string s.
Proof.
  unfold Js.trim, Js.trimEnd. rewrite chars_rev, elem_of_reverse.
  intros H%trimStart_sub. rewrite chars_rev, elem_of_reverse in H.
  by apply trimStart_sub.
Qed.

Lemma split_go_pieces sep : ∀ s cur piece,
  sep ∉ list_ascii_of_string cur → piece ∈ Js.split_go sep cur s → sep ∉ list_ascii_of_string piece.
Proof.
  induction s as [|c s IH]; intros cur piece Hcur; cbn.
  - intros ->%list_elem_of_singleton. by rewrite chars_rev, elem_of_reverse.
  - destruct (Ascii.eqb_spec c sep) as [->|Hne].
    + intros [->|Hin]%elem_of_cons.
      * by rewrite chars_rev, elem_of_reverse.
      * eapply IH; [|done]. cbn. apply not_elem_of_nil.
    + apply IH. cbn. apply not_elem_of_cons. split; [by intros ->|done].
Qed.

Lemma split_go_length : ∀ s cur,
  length (Js.split_go "," cur s) = S (commas s).
Proof.
  unfold commas. induction s as [|c s IH]; intros cur;
    cbn [Js.split_go list_ascii_of_string]; [done|].
  destruct (Ascii.eqb_spec c ",") as [->|Hne].
  - cbn [length]. rewrite IH. by rewrite filter_cons_True.
  - rewrite IH. by rewrite filter_cons_False.
Qed.

(** X9. The symbol list of a request has one symbol more than the path
    parameter has commas, empty segments included; every symbol is
    trimmed, so that trimming it again, as the quote route does before
    the call, changes nothing, and no symbol holds a comma. *)
Theorem symbolList_shape (symbols : string) :
  length (symbolList_of symbols) = S (commas symbols)
  ∧ ∀ symbol, symbol ∈ symbolList_of symbols →
      Js.trim symbol = symbol ∧ ","%char ∉ list_ascii_of_string symbol.
Proof.
  unfold symbolList_of, Js.split. split.
  - rewrite length_fmap. apply split_go_length.
  - intros symbol (piece & -> & Hin)%list_elem_of_fmap. split.
    + apply trim_idemp.
    + intros H%trim_sub. revert H. eapply split_go_pieces; [|done]. apply not_elem_of_nil.
Qed.

(** X10. The count that a screener or news cache key prints is read
    back as the same count: for every safe integer [n] other than 0
    (an integer of at most [Number.MAX_SAFE_INTEGER] in size, which a
    double holds exactly and a template prints in full) the text of [n]
    as count parameter gives the count [n] and a key that prints the
    same text, and likewise CACHE_TTL; the text of 0 gives the
    default. *)
Theorem count_text_round_trip (n : Z) :
  isSafeInteger n →
  let text := Js.number_to_string n in
  screener_count (Some text) = (if decide (n = 0) then 25 else n)
  ∧ news_count (Some text) = (if decide (n = 0) then 10 else n)
  ∧ Config.CACHE_TTL {| Config.env_CACHE_ENABLED := None; Config.env_CACHE_TTL := Some text |}
    = (if decide (n = 0) then 300 else n)
  ∧ (n ≠ 0 → ∀ type,
       screener_cacheKey type (screener_count (Some text)) = "screener:" +:+ type +:+ ":" +:+ text).
Proof.
  intros _. cbn zeta.
  unfold screener_count, news_count, Config.CACHE_TTL. cbn [Config.env_CACHE_TTL].
  rewrite parseInt_number_to_string.
  destruct (decide (n = 0)) as [->|Hn]; [done|].
  assert (∀ d, Js.or_default (Some n) d = n) as Hd. { intros d. by destruct n. }
  rewrite !Hd.
  split; [done|]. split; [done|]. split; [done|]. intros _ type. reflexivity.
Qed.

(** ** The logger *)

Lemma current_log_level (inherited : string → bool) (env_LOG_LEVEL : option string) :
  Logger.get inherited (default "undefined" env_LOG_LEVEL) ≠ Logger.Inherited →
  let current := Logger.CURRENT_LOG_LEVEL inherited env_LOG_LEVEL in
  (current = Logger.Number 1 ∧ env_LOG_LEVEL = Some "warn")
  ∨ (current = Logger.Number 3 ∧ env_LOG_LEVEL = Some "debug")
  ∨ (current = Logger.Number 2 ∧ env_LOG_LEVEL ≠ Some "warn"
     ∧ env_LOG_LEVEL ≠ Some "debug").
Proof.
  unfold Logger.CURRENT_LOG_LEVEL, Logger.get.
  destruct env_LOG_LEVEL as [key|]; cbn [default from_option id].
  - destruct (decide (key = "error")) as [->|?]; [intros _; right; right; by repeat split|].
    destruct (decide (key = "warn")) as [->|?]; [intros _; by left|].
    destruct (decide (key = "info")) as [->|?]; [intros _; right; right; by repeat split|].
    destruct (decide (key = "debug")) as [->|?]; [intros _; right; by left|].
    destruct (inherited key); [done|]. intros _. right. right.
    repeat split; congruence.
  - destruct (decide ("undefined" = "error")) as [|_]; [done|].
    destruct (decide ("undefined" = "warn")) as [|_]; [done|].
    destruct (decide ("undefined" = "info")) as [|_]; [done|].
    destruct (decide ("undefined" = "debug")) as [|_]; [done|].
    destruct (inherited "undefined"); [done|]. intros _. right. right. by repeat split.
Qed.

(** X11. Which messages the logger writes.  Unless LOG_LEVEL names a
    member inherited from [Object.prototype], error and warn messages
    are always written, info messages unless LOG_LEVEL is [warn], and
    debug messages only when LOG_LEVEL is [debug]: the level [error],
    whose number 0 is falsy, is replaced by the default [info] like an
    unset or unknown one.  When LOG_LEVEL names an inherited member
    nothing is written at all.  A line that is written reads
    [[timestamp] LEVEL: message]. *)
Theorem log_levels_written (inherited : string → bool) (env_LOG_LEVEL : option string)
    (timestamp message : string) :
  let current := Logger.CURRENT_LOG_LEVEL inherited env_LOG_LEVEL in
  let written l := is_Some (Logger.log current timestamp l message) in
  (Logger.get inherited (default "undefined" env_LOG_LEVEL) ≠ Logger.Inherited →
   written Logger.error ∧ written Logger.warn
   ∧ (written Logger.info ↔ env_LOG_LEVEL ≠ Some "warn")
   ∧ (written Logger.debug ↔ env_LOG_LEVEL = Some "debug"))
  ∧ (Logger.get inherited (default "undefined" env_LOG_LEVEL) = Logger.Inherited →
     ∀ l, ¬ written l)
  ∧ (∀ l line,
       Logger.log current timestamp l message = Some line →
       line = "[" +:+ timestamp +:+ "] "
              +:+ match l with
                  | Logger.error => "ERROR"
                  | Logger.warn => "WARN"
                  | Logger.info => "INFO"
                  | Logger.debug => "DEBUG"
                  end
              +:+ ": " +:+ message).
Proof.
  cbn zeta. split; [|split].
  - intros Hown.
    destruct (current_log_level inherited env_LOG_LEVEL Hown)
      as [[-> ->]|[[-> ->]|(-> & Hw & Hd)]]; unfold Logger.log; cbn;
      (split; [by eexists|]); (split; [by eexists|]); split; split; intros H;
      try done; try (by eexists); by destruct H.
  - unfold Logger.CURRENT_LOG_LEVEL, Logger.log. intros -> l [line H]. by destruct l.
  - intros l line. unfold Logger.log.
    destruct (Logger.at_most _ _); [|done]. intros [= <-]. by destruct l.
Qed.

(** ** The counters of the loops *)

Section Counters.

Context {V Q : Type}.

Lemma quote_counters symbolList (results : list (settled V)) : ∀ index data sc ec,
  ∃ data',
    forEach_from (quote_each symbolList) index results (data, sc, ec)
    = (data', (sc + length (filter (λ r, is_fulfilled r = true) results))%nat,
              (ec + length (filter (λ r, is_fulfilled r = false) results))%nat).
Proof.
  induction results as [|r results IH]; intros index data sc ec.
  { exists data. cbn. by rewrite !Nat.add_0_r. }
  cbn [forEach_from]. unfold quote_each at 2. destruct r as [v|m].
  - destruct (IH (S index) (assign (at_index symbolList index) (Value v) data) (S sc) ec)
      as [data' ->].
    exists data'. rewrite filter_cons_True, filter_cons_False by done. cbn. do 2 f_equal. lia.
  - destruct (IH (S index) (assign (at_index symbolList index) (ErrorMarker m) data) sc (S ec))
      as [data' ->].
    exists data'. rewrite filter_cons_False, filter_cons_True by done. cbn. f_equal. lia.
Qed.

Lemma history_counters (results : list (settled (chart_result V Q))) : ∀ index data sc ec,
  ∃ data',
    forEach_from history_each index results (data, sc, ec)
    = (data', (sc + length (filter (λ r, is_fulfilled r = true) results))%nat,
              (ec + length (filter (λ r, is_fulfilled r = false) results))%nat).
Proof.
  induction results as [|r results IH]; intros index data sc ec.
  { exists data. cbn. by rewrite !Nat.add_0_r. }
  cbn [forEach_from]. unfold history_each at 2. destruct r as [v|m].
  - destruct (IH (S index) (data ++ [Some (quotes v)]) (S sc) ec) as [data' ->].
    exists data'. rewrite filter_cons_True, filter_cons_False by done. cbn. do 2 f_equal. lia.
  - destruct (IH (S index) (data ++ [None]) sc (S ec)) as [data' ->].
    exists data'. rewrite filter_cons_False, filter_cons_True by done. cbn. f_equal. lia.
Qed.

Lemma info_counters (results : list (settled V)) : ∀ index data sc ec,
  ∃ data',
    forEach_from info_each index results (data, sc, ec)
    = (data', (sc + length (filter (λ r, is_fulfilled r = true) results))%nat,
              (ec + length (filter (λ r, is_fulfilled r = false) results))%nat).
Proof.
  induction results as [|r results IH]; intros index data sc ec.
  { exists data. cbn. by rewrite !Nat.add_0_r. }
  cbn [forEach_from]. unfold info_each at 2. destruct r as [v|m].
  - destruct (IH (S index) (data ++ [Some v]) (S sc) ec) as [data' ->].
    exists data'. rewrite filter_cons_True, filter_cons_False by done. cbn. do 2 f_equal. lia.
  - destruct (IH (S index) (data ++ [None]) sc (S ec)) as [data' ->].
    exists data'. rewrite filter_cons_False, filter_cons_True by done. cbn. f_equal. lia.
Qed.

Lemma fulfilled_or_not {A} (results : list (settled A)) :
  (length (filter (λ r, is_fulfilled r = true) results)
   + length (filter (λ r, is_fulfilled r = false) results))%nat = length results.
Proof.
  induction results as [|[v|m] results IH]; [done|..].
  - rewrite filter_cons_True, filter_cons_False by done. cbn. lia.
  - rewrite filter_cons_False, filter_cons_True by done. cbn. lia.
Qed.

(** X12. The numbers of the summary line of the quote, history and
    info routes are right: when the loop over the results ends,
    [successCount] is the number of fulfilled results, [errorCount] the
    number of rejected ones, and they add up to the number of
    results. *)
Theorem loop_counters symbolList
    (quote_results info_results : list (settled V))
    (history_results : list (settled (chart_result V Q))) :
  let counted {A} (results : list (settled A)) (successCount errorCount : nat) :=
    successCount = length (filter (λ r, is_fulfilled r = true) results)
    ∧ errorCount = length (filter (λ r, is_fulfilled r = false) results)
    ∧ (successCount + errorCount)%nat = length results in
  counted quote_results
    (forEach (quote_each symbolList) quote_results (∅, 0%nat, 0%nat)).1.2
    (forEach (quote_each symbolList) quote_results (∅, 0%nat, 0%nat)).2
  ∧ counted history_results
      (forEach history_each history_results ([], 0%nat, 0%nat)).1.2
      (forEach history_each history_results ([], 0%nat, 0%nat)).2
  ∧ counted info_results
      (forEach info_each info_results ([], 0%nat, 0%nat)).1.2
      (forEach info_each info_results ([], 0%nat, 0%nat)).2.
Proof.
  cbn zeta. unfold forEach.
  destruct (quote_counters symbolList quote_results 0%nat ∅ 0%nat 0%nat) as [d1 ->].
  destruct (history_counters history_results 0%nat [] 0%nat 0%nat) as [d2 ->].
  destruct (info_counters info_results 0%nat [] 0%nat 0%nat) as [d3 ->].
  cbn [fst snd]. rewrite !Nat.add_0_l.
  repeat split; apply fulfilled_or_not.
Qed.

End Counters.

(** ** The news route and the screener handler of routes/index.js *)

Section NewsProperties.

Context {J Q : Type}.

(** X13. The news route, after a miss: when the search fails it answers
    500 with the message of the failure and stores nothing; when it
    succeeds it answers 200 with every article the provider returned,
    in the provider's order and whatever the count that was asked for,
    [count] being their number, [hasNews] telling whether there is one,
    and the message saying that none was found exactly when there is
    none. *)
Theorem news_route_answer (E : bool)
    (searchNews : nat → string → Z → settled (option (list (provider_article J))))
    (now later : Z) (query_count : option string) (w : world (news_json J) Q) :
  misses E now (news_cacheKey (news_count query_count)) w →
  ∃ w',
    issued w' = S (issued w)
    ∧ match searchNews (issued w) EmptyString (news_count query_count) with
      | Rejected failure =>
          news_route E searchNews now later true query_count w
          = (w', Some {| status := 500; json := ErrorBody failure |})
          ∧ cache w' = cache w
      | Fulfilled result_news =>
          ∃ b,
            news_route E searchNews now later true query_count w
            = (w', Some {| status := 200; json := Result (News b) |})
            ∧ news b = newsArticle <$> default [] result_news
            ∧ count b = length (default [] result_news)
            ∧ (hasNews b = true ↔ count b ≠ 0%nat)
            ∧ (message b = "No recent general market news found." ↔ count b = 0%nat)
      end.
Proof.
  intros Hm. unfold news_route.
  destruct (searchNews (issued w) EmptyString (news_count query_count))
    as [result_news|failure] eqn:Hs.
  - erewrite cached_route_done; [|done|].
    2:{ unfold news_block, issue. cbn.
        replace (issued (if E then _ else w)) with (issued w) by (by destruct E).
        rewrite Hs. reflexivity. }
    eexists. split; cycle 1.
    { eexists. split; [reflexivity|].
      unfold news_response. cbn. rewrite length_fmap.
      split; [done|]. split; [done|].
      destruct (default [] result_news) as [|a l]; cbn; [done|].
      split; split; intros H; done. }
    by destruct E.
  - destruct E.
    + destruct Hm as [?|Hget]; [done|]. rewrite cached_route_miss by done.
      unfold news_block, issue, emit, respond. cbn. rewrite Hs.
      eexists. split; [|split; [reflexivity|]]; done.
    + unfold cached_route, news_block, issue, emit, respond. cbn. rewrite Hs.
      eexists. split; [|split; [reflexivity|]]; done.
Qed.

(** X14. The screener handler of routes/index.js turns no type down:
    after a miss it issues one call, for the type itself except that
    [most_shorted] is asked as [most_shorted_stocks], and answers 200
    with what the provider resolved to, or 500 with the message of the
    failure, storing nothing. *)
Theorem screener_js_forwards_any_type {V : Type} (E : bool)
    (screenerQuery : nat → string → Z → settled V)
    (now later : Z) (type : string) (query_count : option string) (w : world V Q) :
  misses E now (screener_cacheKey type (screener_count query_count)) w →
  (scrIds type = type ∨ type = "most_shorted" ∧ scrIds type = "most_shorted_stocks")
  ∧ ∃ w',
      issued w' = S (issued w)
      ∧ provider_calls (drop (length (trace w)) (trace w')) = [CallScreener (scrIds type)]
      ∧ match screenerQuery (issued w) (scrIds type) (screener_count query_count) with
        | Rejected failure =>
            screener_route_js E screenerQuery now later true type query_count w
            = (w', Some {| status := 500; json := ErrorBody failure |})
            ∧ cache w' = cache w
        | Fulfilled value =>
            screener_route_js E screenerQuery now later true type query_count w
            = (w', Some {| status := 200; json := Result value |})
        end.
Proof.
  intros Hm. split.
  - unfold scrIds. repeat (destruct (decide (type = _)) as [->|?]; [by (left + right)|]).
    by left.
  - unfold screener_route_js.
    destruct (screenerQuery (issued w) (scrIds type) (screener_count query_count))
      as [value|failure] eqn:Hs.
    + destruct E.
      * destruct Hm as [?|Hget]; [done|]. rewrite cached_route_miss by done.
        unfold single_block, issue, emit, respond, cache_set. cbn. rewrite Hs.
        eexists. split; [|split; [|reflexivity]]; [done|]. cbn.
        rewrite <- !app_assoc, drop_app_length. done.
      * unfold cached_route, single_block, issue, emit, respond. cbn. rewrite Hs.
        eexists. split; [|split; [|reflexivity]]; [done|]. cbn.
        rewrite <- !app_assoc, drop_app_length. done.
    + destruct E.
      * destruct Hm as [?|Hget]; [done|]. rewrite cached_route_miss by done.
        unfold single_block, issue, emit, respond. cbn. rewrite Hs.
        eexists. split; [|split; [|split; [reflexivity|]]]; [done| |done]. cbn.
        rewrite <- !app_assoc, drop_app_length. done.
      * unfold cached_route, single_block, issue, emit, respond. cbn. rewrite Hs.
        eexists. split; [|split; [|split; [reflexivity|]]]; [done| |done]. cbn.
        rewrite <- !app_assoc, drop_app_length. done.
Qed.

End NewsProperties.

Section CaseFolding.

Context {V Q : Type}.
Implicit Types (w : world V Q) (rt : runtime V Q).

(** X15. The recommendations and insights routes key their entries by
    the symbol in upper case: a request answered with a result is
    answered again, from the cache and without a provider call, for any
    spelling of the symbol with the same upper case, for as long as the
    entry lives. *)
Theorem symbol_case_shares_entry rt (t1 t2 : timing) (route : string → @request)
    (symbol symbol' : string) w w1 (r1 : response V Q) :
  route = GetRecommendations ∨ route = GetInsights →
  toUpperCase rt symbol = toUpperCase rt symbol' →
  handle true rt t1 (route symbol) w = (w1, Some r1) →
  status r1 = 200 →
  (∀ e, Cache.entries (cache w1) !! cacheKey_of rt (route symbol) = Some e →
        t_request t2 < Cache.expiresAt e) →
  ∃ evs,
    handle true rt t2 (route symbol') w1
    = ({| cache := cache w1; issued := issued w1; trace := trace w1 ++ evs |}, Some r1)
    ∧ provider_calls evs = [].
Proof.
  intros Hroute Hup H1 Hst Halive.
  exists [CacheGet (cacheKey_of rt (route symbol)); Respond 200]. split; [|done].
  destruct Hroute as [-> | ->]; cbn [handle cacheKey_of] in *.
  - unfold recommendations_route in *. rewrite <- Hup.
    eapply cached_route_twice; [apply single_block_frame|done..].
  - unfold insights_route in *. rewrite <- Hup.
    eapply cached_route_twice; [apply single_block_frame|done..].
Qed.

End CaseFolding.

(** ** The process over its requests *)

Section Process.

Context {V Q : Type}.
Implicit Types (w : world V Q) (rt : runtime V Q) (req : @request).

(** The block of a served request: it ends at its await exactly when a
    call stays outstanding, and what it ends with is what the provider
    gave for the request. *)
Lemma handle_block rt req t :
  (fanout_size req = 0%nat
   ∧ ∀ E w, ∃ message, handle E rt t req w = respond 400 (ErrorBody message) w)
  ∨ (fanout_size req ≠ 0%nat
     ∧ ∃ block,
         (∀ E w, handle E rt t req w
                 = cached_route E (t_request t) (t_resume t) (cacheKey_of rt req) block w)
         ∧ (∀ w data w1, block w = (Done data, w1) →
                         produced rt (issued w) (t_request t) req data)
         ∧ (settles t req → ∀ w, (block w).1 ≠ Awaiting)
         ∧ (¬ settles t req → ∀ w, (block w).1 = Awaiting)).
Proof.
  destruct req as [symbols|symbols period interval|symbols|query|region|symbol|symbol|type count].
  - right. split.
    { cbn [fanout_size]. pose proof (symbolList_of_nonempty symbols). lia. }
    eexists. split; [intros E w; reflexivity|].
    unfold settles. cbn [fanout_symbols].
    split; [|split].
    + intros w data w1.
      destruct (covers_dec (completion t) (length (symbolList_of symbols)))
        as [Hc|(i & Hi & Hni)].
      * rewrite quote_block_done by done. by intros [= <- _].
      * by rewrite (quote_block_awaiting _ _ _ _ i) by done.
    + intros Hc w. by rewrite quote_block_done by done.
    + intros Hn w.
      destruct (covers_dec (completion t) (length (symbolList_of symbols)))
        as [Hc|(i & Hi & Hni)]; [done|].
      by rewrite (quote_block_awaiting _ _ _ _ i) by done.
  - right. split.
    { cbn [fanout_size]. pose proof (symbolList_of_nonempty symbols). lia. }
    eexists. split; [intros E w; reflexivity|].
    unfold settles. cbn [fanout_symbols].
    split; [|split].
    + intros w data w1.
      destruct (covers_dec (completion t) (length (symbolList_of symbols)))
        as [Hc|(i & Hi & Hni)].
      * rewrite history_block_done by done. by intros [= <- _].
      * by rewrite (history_block_awaiting _ _ _ _ _ i) by done.
    + intros Hc w. by rewrite history_block_done by done.
    + intros Hn w.
      destruct (covers_dec (completion t) (length (symbolList_of symbols)))
        as [Hc|(i & Hi & Hni)]; [done|].
      by rewrite (history_block_awaiting _ _ _ _ _ i) by done.
  - right. split.
    { cbn [fanout_size]. pose proof (symbolList_of_nonempty symbols). lia. }
    eexists. split; [intros E w; reflexivity|].
    unfold settles. cbn [fanout_symbols].
    split; [|split].
    + intros w data w1.
      destruct (covers_dec (completion t) (length (symbolList_of symbols)))
        as [Hc|(i & Hi & Hni)].
      * rewrite info_block_done by done. by intros [= <- _].
      * by rewrite (info_block_awaiting _ _ _ _ i) by done.
    + intros Hc w. by rewrite info_block_done by done.
    + intros Hn w.
      destruct (covers_dec (completion t) (length (symbolList_of symbols)))
        as [Hc|(i & Hi & Hni)]; [done|].
      by rewrite (info_block_awaiting _ _ _ _ i) by done.
  - right. split; [done|]. eexists. split; [intros E w; reflexivity|].
    unfold settles, single_block, issue. cbn [fanout_symbols].
    split; [|split].
    + intros w data w1. destruct (completes t); [|done].
      destruct (search _ _ _) as [value|] eqn:Hcall; [|done]. intros [= <- _].
      exists (λ n, search (yahooFinance rt) n query), value. done.
    + intros -> w. by destruct (search _ _ _).
    + intros Hn w. by destruct (completes t).
  - right. split; [done|]. eexists. split; [intros E w; reflexivity|].
    unfold settles, single_block, issue. cbn [fanout_symbols].
    split; [|split].
    + intros w data w1. destruct (completes t); [|done].
      destruct (trendingSymbols _ _ _) as [value|] eqn:Hcall; [|done]. intros [= <- _].
      eexists _, value. split; [reflexivity|]. done.
    + intros -> w. by destruct (trendingSymbols _ _ _).
    + intros Hn w. by destruct (completes t).
  - right. split; [done|]. eexists. split; [intros E w; reflexivity|].
    unfold settles, single_block, issue. cbn [fanout_symbols].
    split; [|split].
    + intros w data w1. destruct (completes t); [|done].
      destruct (recommendationsBySymbol _ _ _) as [value|] eqn:Hcall; [|done].
      intros [= <- _]. eexists _, value. split; [reflexivity|]. done.
    + intros -> w. by destruct (recommendationsBySymbol _ _ _).
    + intros Hn w. by destruct (completes t).
  - right. split; [done|]. eexists. split; [intros E w; reflexivity|].
    unfold settles, single_block, issue. cbn [fanout_symbols].
    split; [|split].
    + intros w data w1. destruct (completes t); [|done].
      destruct (insights _ _ _) as [value|] eqn:Hcall; [|done]. intros [= <- _].
      eexists _, value. split; [reflexivity|]. done.
    + intros -> w. by destruct (insights _ _ _).
    + intros Hn w. by destruct (completes t).
  - cbn [fanout_size]. destruct (Js.includes validTypes type) eqn:Hv.
    + right. split; [done|].
      exists (screener_block (yahooFinance rt) (screener_count count) (completes t) type).
      split; [intros E w; cbn [handle]; unfold screener_route; by rewrite Hv|].
      unfold settles, screener_block, issue. cbn [fanout_symbols].
      split; [|split].
      * intros w data w1. destruct (completes t); [|done].
        destruct (screener _ _ _) as [result|] eqn:Hcall; [|done]. intros [= <- _].
        split; [by apply bool_decide_eq_true in Hv|]. by exists result.
      * intros -> w. by destruct (screener _ _ _).
      * intros Hn w. by destruct (completes t).
    + left. split; [done|]. intros E w. eexists.
      cbn [handle]. unfold screener_route. rewrite Hv. reflexivity.
Qed.

(** Of two requests with the same key, what the provider gave for the
    one it gave for the other, the history route apart, whose keys do
    not tell all requests apart. *)
Lemma produced_same_key rt n now req0 req (b : body V Q) :
  cacheKey_of rt req0 = cacheKey_of rt req →
  fanout_size req ≠ 0%nat →
  produced rt n now req0 b →
  match req with
  | GetHistory _ _ _ => True
  | _ => produced rt n now req b
  end.
Proof.
  intros Hk Hserved Hp.
  pose proof (cacheKey_same_route rt req0 req Hk) as Hs.
  destruct req0, req; try done; cbn [cacheKey_of] in Hk.
  - by apply (inj (String.app "quote:")) in Hk as <-.
  - by apply (inj (String.app "info:")) in Hk as <-.
  - by apply (inj (String.app "search:")) in Hk as <-.
  - apply (inj (String.app "trending:")) in Hk.
    destruct Hp as (op & value & [= <-] & Hop & ->).
    eexists _, value. split; [reflexivity|]. split; [|done]. by rewrite <- Hk.
  - apply (inj (String.app "recommendations:")) in Hk.
    destruct Hp as (op & value & [= <-] & Hop & ->).
    eexists _, value. split; [reflexivity|]. split; [|done]. by rewrite <- Hk.
  - apply (inj (String.app "insights:")) in Hk.
    destruct Hp as (op & value & [= <-] & Hop & ->).
    eexists _, value. split; [reflexivity|]. split; [|done]. by rewrite <- Hk.
  - unfold screener_cacheKey in Hk. apply (inj (String.app "screener:")) in Hk.
    destruct Hp as (Hv0 & result & Hr & ->).
    cbn [fanout_size] in Hserved.
    destruct (Js.includes validTypes _) eqn:Hv in Hserved; [|done].
    apply bool_decide_eq_true in Hv.
    apply colon_split in Hk as [-> Hk]; [|by apply validTypes_colon_free..].
    apply number_to_string_inj in Hk.
    split; [done|]. exists result. split; [done|]. by rewrite Hk.
Qed.

(** A result that is sent is the value of a live entry under the key of
    the request, or what the provider gave for the request. *)
Lemma handle_produces E rt t req w w' data :
  handle E rt t req w = (w', Some {| status := 200; json := data |}) →
  fanout_size req ≠ 0%nat
  ∧ ((E = true
      ∧ Cache.get (t_request t) (cacheKey_of rt req) (cache w) = Some data
      ∧ ∃ e, Cache.entries (cache w) !! cacheKey_of rt req = Some e ∧ Cache.value e = data)
     ∨ (misses E (t_request t) (cacheKey_of rt req) w
        ∧ produced rt (issued w) (t_request t) req data)).
Proof.
  intros H.
  destruct (handle_block rt req t) as [[_ Hrej]|(Hserved & block & Hh & Hgave & _)].
  - destruct (Hrej E w) as [m Hm]. rewrite Hm in H. unfold respond in H. by injection H.
  - split; [done|]. rewrite Hh in H. destruct E.
    + destruct (Cache.get (t_request t) (cacheKey_of rt req) (cache w)) as [c|] eqn:Hget.
      * rewrite (cached_route_hit _ _ _ _ _ c) in H by done. injection H as _ <-.
        left. split; [done|]. split; [done|].
        apply cache_get_Some in Hget as (e & He & <- & _). by exists e.
      * rewrite cached_route_miss in H by done.
        destruct (block _) as [[|d|m] w1] eqn:Hb; unfold respond in H; [done| |by injection H].
        injection H as _ <-. right. split; [by right|].
        by apply (Hgave _ _ _ Hb).
    + unfold cached_route in H.
      destruct (block _) as [[|d|m] w1] eqn:Hb; unfold respond in H; [done| |by injection H].
      injection H as _ <-. right. split; [by left|]. by apply (Hgave _ _ _ Hb).
Qed.

Lemma reachable_entries_produced E rt w :
  reachable E rt w →
  ∀ key e, Cache.entries (cache w) !! key = Some e →
           ∃ req n now, cacheKey_of rt req = key ∧ produced rt n now req (Cache.value e).
Proof.
  induction 1 as [ttl|w t req0 Hw IH].
  - intros key e He. cbn in He. by rewrite lookup_empty in He.
  - destruct (handle E rt t req0 w) as [w' r] eqn:H. cbn [fst].
    destruct (handle_store_change _ _ _ _ _ _ _ H)
      as [Hsame|(-> & Hget & data & -> & Hc)]; [by rewrite Hsame|].
    rewrite Hc. unfold Cache.set. cbn [Cache.entries].
    intros key e.
    destruct (decide (key = cacheKey_of rt req0)) as [->|Hne].
    + rewrite lookup_insert_eq. intros [= <-]. cbn [Cache.value].
      destruct (handle_produces _ _ _ _ _ _ _ H) as [_ [(_ & Hhit & _)|[_ Hp]]].
      * by rewrite Hget in Hhit.
      * by exists req0, (issued w), (t_request t).
    + rewrite lookup_insert_ne by done. apply IH.
Qed.

(** X16. Whatever requests a process has served since it started with an
    empty cache, every entry of its store is what the provider gave for
    a request with the key of the entry, and every result the process
    sends, from the provider or from the cache, is what the provider
    gave for a request of the same route with the same key; the history
    route apart, whose keys do not tell all requests apart, it is what
    the provider gave for the very request: no route is answered with
    the data of another. *)
Theorem responses_come_from_the_provider E rt w :
  reachable E rt w →
  (∀ key e, Cache.entries (cache w) !! key = Some e →
            ∃ req n now, cacheKey_of rt req = key ∧ produced rt n now req (Cache.value e))
  ∧ (∀ t req w' data,
       handle E rt t req w = (w', Some {| status := 200; json := data |}) →
       ∃ req0 n now,
         cacheKey_of rt req0 = cacheKey_of rt req
         ∧ same_route req0 req
         ∧ produced rt n now req0 data
         ∧ match req with
           | GetHistory _ _ _ => True
           | _ => produced rt n now req data
           end).
Proof.
  intros Hw. split; [by apply (reachable_entries_produced E)|].
  intros t req w' data H.
  assert (∃ req0 n now,
            cacheKey_of rt req0 = cacheKey_of rt req ∧ produced rt n now req0 data
            ∧ fanout_size req ≠ 0%nat) as (req0 & n & now & Hk & Hp & Hserved).
  { destruct (handle_produces _ _ _ _ _ _ _ H) as [Hserved [(_ & _ & e & He & <-)|[_ Hp]]].
    - destruct (reachable_entries_produced E rt w Hw _ e He) as (req0 & n & now & Hk & Hp).
      by exists req0, n, now.
    - by exists req, (issued w), (t_request t). }
  exists req0, n, now. split; [done|]. split; [by apply (cacheKey_same_route rt)|].
  split; [done|]. by apply (produced_same_key rt n now req0).
Qed.

(** X17. A request whose provider calls all settle is answered, with
    status 200, 400 or 500, and the response is the last event of the
    handler; a request that misses the cache and has a call that never
    settles is never answered. *)
Theorem settled_request_is_answered E rt (t : timing) req w w' r :
  handle E rt t req w = (w', r) →
  (settles t req →
   ∃ resp, r = Some resp
           ∧ (status resp = 200 ∨ status resp = 400 ∨ status resp = 500)
           ∧ last (trace w') = Some (Respond (status resp)))
  ∧ (¬ settles t req →
     misses E (t_request t) (cacheKey_of rt req) w →
     fanout_size req ≠ 0%nat →
     r = None).
Proof.
  intros H.
  assert (∀ s b w0, ∃ resp, respond s b w0 = (emit [Respond s] w0, Some resp)
                            ∧ status resp = s
                            ∧ last (trace (emit [Respond s] w0)) = Some (Respond s))
    as Hresp.
  { intros s b w0. eexists. split; [reflexivity|]. split; [done|].
    unfold emit. cbn [trace]. apply last_snoc. }
  destruct (handle_block rt req t) as [[H0 Hrej]|(_ & block & Hh & _ & Hdone & Hwait)].
  - split; [|done]. intros _. destruct (Hrej E w) as [m Hm]. rewrite Hm in H.
    destruct (Hresp 400 (ErrorBody m) w) as (resp & Hr & Hst & Hl).
    rewrite Hr in H. injection H as <- <-. exists resp. rewrite Hst. auto.
  - rewrite Hh in H. split.
    + intros Hs. specialize (Hdone Hs). unfold cached_route in H.
      destruct (if E then cache_get _ _ w else (None, w)) as [[c|] w0].
      * destruct (Hresp 200 c w0) as (resp & Hr & Hst & Hl).
        rewrite Hr in H. injection H as <- <-. exists resp. rewrite Hst. auto.
      * specialize (Hdone w0). destruct (block w0) as [[|d|m] w1]; [done| |].
        -- destruct (Hresp 200 d (if E then cache_set (t_resume t) (cacheKey_of rt req) d w1
                                  else w1)) as (resp & Hr & Hst & Hl).
           rewrite Hr in H. injection H as <- <-. exists resp. rewrite Hst. auto.
        -- destruct (Hresp 500 (ErrorBody m) w1) as (resp & Hr & Hst & Hl).
           rewrite Hr in H. injection H as <- <-. exists resp. rewrite Hst. auto.
    + intros Hn Hm _. specialize (Hwait Hn). unfold cached_route in H.
      destruct E.
      * destruct Hm as [?|Hget]; [done|]. unfold cache_get in H. rewrite Hget in H.
        specialize (Hwait (emit [CacheGet (cacheKey_of rt req)] w)).
        destruct (block _) as [res w1]. cbn in Hwait. subst res. by injection H.
      * specialize (Hwait w). destruct (block _) as [res w1]. cbn in Hwait. subst res.
        by injection H.
Qed.

End Process.

(** ** The further properties at concrete requests *)

Lemma cacheKey_routes_apart_witness :
  let rt := sample_runtime not_found in
  (same_route (GetQuote "AAPL, MSFT") (GetQuote "AAPL, MSFT")
   ∧ GetQuote "AAPL, MSFT" = GetQuote "AAPL, MSFT")
  ∧ cacheKey_of rt (GetInfo "AAPL") ≠ cacheKey_of rt (GetInsights "AAPL")
  ∧ cacheKey_of rt (GetQuote "AAPL, MSFT") ≠ cacheKey_of rt (GetQuote "AAPL,MSFT").
Proof.
  intros rt. split; [|split].
  - apply (cacheKey_routes_apart rt (GetQuote "AAPL, MSFT") (GetQuote "AAPL, MSFT")).
    reflexivity.
  - intros H. apply (cacheKey_routes_apart rt (GetInfo "AAPL") (GetInsights "AAPL")) in H.
    destruct H as [H _]. exact H.
  - intros H.
    apply (cacheKey_routes_apart rt (GetQuote "AAPL, MSFT") (GetQuote "AAPL,MSFT")) in H.
    destruct H as [_ H]. discriminate H.
Defined.

Lemma expired_entry_fans_out_again_witness :
  let rt := sample_runtime not_found in
  let t1 := {| t_request := 0; t_resume := 40; completion := [1; 0]%nat; completes := true |} in
  let t2 := {| t_request := 300040; t_resume := 300090; completion := [0; 1]%nat;
               completes := true |} in
  let w1 := (handle true rt t1 (GetQuote "AAPL,BADSYM") fresh_world).1 in
  let second := handle true rt t2 (GetQuote "AAPL,BADSYM") w1 in
  issued second.1 = 4%nat
  ∧ ∃ evs, trace second.1 = trace w1 ++ evs ∧ length (provider_calls evs) = 2%nat.
Proof.
  intros rt t1 t2 w1 second.
  destruct (expired_entry_fans_out_again rt t2 (GetQuote "AAPL,BADSYM") w1 second.1 second.2)
    as (Hissued & Hevs & _).
  - apply surjective_pairing.
  - intros e He. vm_compute in He. injection He as <-. vm_compute. discriminate.
  - split; [exact Hissued | exact Hevs].
Defined.

Lemma only_results_are_stored_witness :
  let rt := sample_runtime not_found in
  let t := {| t_request := 0; t_resume := 40; completion := []; completes := true |} in
  let failed := handle true rt t (GetSearch "BADSYM") fresh_world in
  let served := handle true rt t (GetSearch "apple") fresh_world in
  cache failed.1 = cache fresh_world
  ∧ cache served.1
    = Cache.set 40 "search:apple" (Result "data for apple") None (cache fresh_world).
Proof.
  intros rt t failed served. split.
  - destruct (only_results_are_stored true rt t (GetSearch "BADSYM") fresh_world
                failed.1 failed.2) as [Hsame|(_ & _ & data & Hr & _)].
    + apply surjective_pairing.
    + exact Hsame.
    + vm_compute in Hr. discriminate Hr.
  - destruct (only_results_are_stored true rt t (GetSearch "apple") fresh_world
                served.1 served.2) as [Hsame|(_ & _ & data & Hr & Hset)].
    + apply surjective_pairing.
    + vm_compute in Hsame. discriminate Hsame.
    + vm_compute in Hr. injection Hr as <-. exact Hset.
Defined.

Lemma single_call_answer_witness :
  let rt := sample_runtime not_found in
  let t := {| t_request := 0; t_resume := 40; completion := []; completes := true |} in
  (∃ w', handle true rt t (GetTrending "BADSYM") fresh_world
         = (w', Some {| status := 500; json := ErrorBody "Not found" |})
         ∧ cache w' = cache fresh_world)
  ∧ (∃ w', handle true rt t (GetTrending "US") fresh_world
           = (w', Some {| status := 200; json := Result "data for US" |})
           ∧ Cache.get 300039 "trending:US" (cache w') = Some (Result "data for US")).
Proof.
  intros rt t. split.
  - destruct (single_call_answer true rt t (GetTrending "BADSYM")
                (λ n, trendingSymbols (yahooFinance rt) n "BADSYM") fresh_world)
      as (w' & _ & Hr & Hc).
    + reflexivity.
    + right. reflexivity.
    + reflexivity.
    + by exists w'.
  - destruct (single_call_answer true rt t (GetTrending "US")
                (λ n, trendingSymbols (yahooFinance rt) n "US") fresh_world)
      as (w' & _ & Hr & Hget).
    + reflexivity.
    + right. reflexivity.
    + reflexivity.
    + exists w'. split; [exact Hr|]. apply Hget; reflexivity.
Defined.

Lemma info_output_follows_input_order_witness :
  ∃ w' data,
    info_route false (sample_yahoo not_found) 0 40 [1; 0]%nat "AAPL, BADSYM" fresh_world
    = (w', Some {| status := 200; json := InfoData data |})
    ∧ data !! 0%nat = Some (Some "data for AAPL")
    ∧ data !! 1%nat = Some None.
Proof.
  destruct (info_output_follows_input_order false (sample_yahoo not_found) 0 40
              [1; 0]%nat "AAPL, BADSYM" fresh_world) as (w' & data & Hr & _ & _ & Hslot).
  - left. reflexivity.
  - apply (bool_decide_unpack _). by vm_compute.
  - exists w', data. split; [exact Hr|]. split.
    + apply (Hslot 0%nat "AAPL"). reflexivity.
    + apply (Hslot 1%nat "BADSYM"). reflexivity.
Defined.

Lemma history_window_witness :
  let cal := dates (sample_runtime not_found) in
  period2 (history_options cal 1700000000123 "1mo" "1d")
  - period1 (history_options cal 1700000000123 "1mo" "1d") = 30 * 86400
  ∧ history_options cal 1700000000123 "1w" "1d" = history_options cal 1700000000123 "1y" "1d".
Proof.
  intros cal.
  destruct (history_window cal 1700000000123 "1mo" "1d") as [Hdays _].
  destruct (history_window cal 1700000000123 "1w" "1d") as [_ Hunknown].
  split.
  - apply (Hdays 30). apply (bool_decide_unpack _). by vm_compute.
  - apply Hunknown. apply (bool_decide_unpack _). by vm_compute.
Defined.

Lemma screener_rejects_exactly_unknown_types_witness :
  let run := screener_route true (sample_yahoo not_found) 0 40 true "most_shorted" None
               fresh_world in
  run.1 = {| cache := cache fresh_world; issued := 0; trace := [Respond 400] |}.
Proof.
  intros run.
  destruct run as [w' [r|]] eqn:Hrun; [|by vm_compute in Hrun].
  destruct (screener_rejects_exactly_unknown_types true (sample_yahoo not_found) 0 40 true
              "most_shorted" None fresh_world w' r Hrun) as [_ Hw].
  apply Hw. apply (bool_decide_unpack _). by vm_compute.
Defined.

Lemma screener_sends_a_prefix_witness :
  ∃ w',
    screener_route false (sample_yahoo not_found) 0 40 true "day_losers" (Some "2")
      fresh_world
    = (w', Some {| status := 200;
                   json := ScreenerData {| scr_quotes := Some ["AAPL"; "MSFT"];
                                           scr_rest := "day_losers" |} |}).
Proof.
  destruct (screener_sends_a_prefix false (sample_yahoo not_found) 0 40 "day_losers"
              (Some "2") fresh_world
              {| scr_quotes := Some ["AAPL"; "MSFT"; "TSLA"]; scr_rest := "day_losers" |})
    as (w' & kept & Hr & -> & _).
  - apply (bool_decide_unpack _). by vm_compute.
  - left. reflexivity.
  - reflexivity.
  - vm_compute. discriminate.
  - exists w'. exact Hr.
Defined.

Lemma symbolList_shape_witness :
  length (symbolList_of "AAPL, ,MSFT,") = 4%nat
  ∧ Js.trim " MSFT" = "MSFT"
  ∧ Js.trim (Js.trim " MSFT") = Js.trim " MSFT".
Proof.
  destruct (symbolList_shape "AAPL, ,MSFT,") as [Hlen _].
  destruct (symbolList_shape " MSFT") as [_ Htrim].
  split; [exact Hlen|]. split; [reflexivity|].
  apply (Htrim (Js.trim " MSFT")). apply (bool_decide_unpack _). by vm_compute.
Defined.

Lemma count_text_round_trip_witness :
  screener_count (Some (Js.number_to_string 50)) = 50
  ∧ screener_cacheKey "day_gainers" (screener_count (Some (Js.number_to_string 50)))
    = "screener:day_gainers:50".
Proof.
  destruct (count_text_round_trip 50) as (Hcount & _ & _ & Hkey).
  - unfold isSafeInteger, MAX_SAFE_INTEGER. lia.
  - split; [exact Hcount|]. apply (Hkey ltac:(discriminate) "day_gainers").
Defined.

Lemma log_levels_written_witness :
  let inherited key := bool_decide (key ∈ Logger.object_prototype_names) in
  let log_with env l :=
    Logger.log (Logger.CURRENT_LOG_LEVEL inherited env) "2026-01-01T00:00:00.000Z" l "up" in
  is_Some (log_with (Some "error") Logger.warn)
  ∧ ¬ is_Some (log_with None Logger.debug)
  ∧ ¬ is_Some (log_with (Some "toString") Logger.error).
Proof.
  intros inherited log_with.
  destruct (log_levels_written inherited (Some "error") "2026-01-01T00:00:00.000Z" "up")
    as [Herror _].
  destruct (log_levels_written inherited None "2026-01-01T00:00:00.000Z" "up")
    as [Hunset _].
  destruct (log_levels_written inherited (Some "toString") "2026-01-01T00:00:00.000Z" "up")
    as (_ & Hinherited & _).
  split; [|split].
  - apply Herror. vm_compute. discriminate.
  - intros H. apply Hunset in H; [discriminate H|]. vm_compute. discriminate.
  - apply Hinherited. reflexivity.
Defined.

Lemma news_route_answer_witness :
  let article (n : string) : provider_article string :=
    {| pa_title := n; pa_publisher := "wire"; pa_link := "https://example.org/" +:+ n;
       pa_providerPublishTime := "1700000000"; pa_type := "STORY";
       pa_thumbnail := "none"; pa_relatedTickers := "AAPL" |} in
  let searchNews (n : nat) (query : string) (count : Z)
      : settled (option (list (provider_article string))) :=
    Fulfilled (Some [article "a"; article "b"; article "c"]) in
  let w : world (news_json string) (list Z) :=
    {| cache := Cache.create 300; issued := 0; trace := [] |} in
  ∃ w' b,
    news_route true searchNews 0 40 true (Some "2") w
    = (w', Some {| status := 200; json := Result (News b) |})
    ∧ count b = 3%nat
    ∧ hasNews b = true.
Proof.
  intros article searchNews w.
  destruct (news_route_answer true searchNews 0 40 (Some "2") w) as (w' & _ & Hanswer).
  - right. reflexivity.
  - cbn in Hanswer. destruct Hanswer as (b & Hr & _ & Hcount & Hhas & _).
    exists w', b. split; [exact Hr|]. split; [exact Hcount|].
    apply Hhas. rewrite Hcount. discriminate.
Defined.

Lemma screener_js_forwards_any_type_witness :
  let screenerQuery (n : nat) (ids : string) (count : Z) : settled string :=
    Fulfilled ("screen " +:+ ids) in
  ∃ w',
    screener_route_js true screenerQuery 0 40 true "most_shorted" None fresh_world
    = (w', Some {| status := 200; json := Result "screen most_shorted_stocks" |})
    ∧ provider_calls (trace w') = [CallScreener "most_shorted_stocks"].
Proof.
  intros screenerQuery.
  destruct (screener_js_forwards_any_type true screenerQuery 0 40 "most_shorted" None
              fresh_world) as (_ & w' & _ & Hcalls & Hr).
  - right. reflexivity.
  - exists w'. split; [exact Hr | exact Hcalls].
Defined.

Lemma symbol_case_shares_entry_witness :
  let rt : runtime string (list Z) :=
    {| yahooFinance := sample_yahoo not_found;
       dates := dates (sample_runtime not_found);
       toUpperCase := Logger.toUpperCase |} in
  let t1 := {| t_request := 0; t_resume := 40; completion := []; completes := true |} in
  let t2 := {| t_request := 1000; t_resume := 1040; completion := []; completes := true |} in
  let first := handle true rt t1 (GetInsights "aapl") fresh_world in
  ∃ r1 evs,
    first.2 = Some r1
    ∧ handle true rt t2 (GetInsights "AaPl") first.1
      = ({| cache := cache first.1; issued := issued first.1;
            trace := trace first.1 ++ evs |}, Some r1)
    ∧ provider_calls evs = [].
Proof.
  intros rt t1 t2 first.
  destruct first as [w1 [r1|]] eqn:Hfirst; [|by vm_compute in Hfirst].
  destruct (symbol_case_shares_entry rt t1 t2 GetInsights "aapl" "AaPl" fresh_world w1 r1)
    as (evs & Hsecond & Hcalls).
  - by right.
  - reflexivity.
  - exact Hfirst.
  - vm_compute in Hfirst. injection Hfirst as _ <-. reflexivity.
  - vm_compute in Hfirst. injection Hfirst as <- _. intros e He.
    vm_compute in He. injection He as <-. reflexivity.
  - exists r1, evs. split; [reflexivity|]. split; [exact Hsecond | exact Hcalls].
Defined.

Lemma responses_come_from_the_provider_witness :
  let rt := sample_runtime not_found in
  let t1 := {| t_request := 0; t_resume := 40; completion := []; completes := true |} in
  let t2 := {| t_request := 1000; t_resume := 1040; completion := []; completes := false |} in
  let w1 := (handle true rt t1 (GetTrending EmptyString) fresh_world).1 in
  let second := handle true rt t2 (GetTrending "US") w1 in
  second.2 = Some {| status := 200; json := Result "data for US" |}
  ∧ issued second.1 = 1%nat
  ∧ ∃ n now, produced rt n now (GetTrending "US") (Result "data for US").
Proof.
  intros rt t1 t2 w1 second.
  assert (reachable true rt w1) as Hw1.
  { apply (reachable_step true rt fresh_world t1 (GetTrending EmptyString)).
    apply (reachable_start true rt 300). }
  destruct (responses_come_from_the_provider true rt w1 Hw1) as [_ Hsent].
  split; [vm_compute; reflexivity|]. split; [vm_compute; reflexivity|].
  destruct (Hsent t2 (GetTrending "US") second.1 (Result "data for US"))
    as (req0 & n & now & _ & _ & _ & Hp).
  - vm_compute. reflexivity.
  - by exists n, now.
Defined.

Lemma settled_request_is_answered_witness :
  let rt := sample_runtime not_found in
  let t := {| t_request := 0; t_resume := 40; completion := [1; 0]%nat; completes := true |} in
  let t' := {| t_request := 0; t_resume := 40; completion := [0]%nat; completes := true |} in
  (∃ resp, (handle true rt t (GetInfo "AAPL,BADSYM") fresh_world).2 = Some resp
           ∧ (status resp = 200 ∨ status resp = 400 ∨ status resp = 500))
  ∧ (handle true rt t' (GetInfo "AAPL,BADSYM") fresh_world).2 = None.
Proof.
  intros rt t t'. split.
  - destruct (settled_request_is_answered true rt t (GetInfo "AAPL,BADSYM") fresh_world
                (handle true rt t (GetInfo "AAPL,BADSYM") fresh_world).1
                (handle true rt t (GetInfo "AAPL,BADSYM") fresh_world).2)
      as [Hanswered _]; [apply surjective_pairing|].
    destruct Hanswered as (resp & Hr & Hst & _).
    + intros i Hi. vm_compute in Hi. destruct i as [|[|i]]; [repeat constructor|repeat constructor|lia].
    + by exists resp.
  - destruct (settled_request_is_answered true rt t' (GetInfo "AAPL,BADSYM") fresh_world
                (handle true rt t' (GetInfo "AAPL,BADSYM") fresh_world).1
                (handle true rt t' (GetInfo "AAPL,BADSYM") fresh_world).2)
      as [_ Hpending]; [apply surjective_pairing|].
    apply Hpending.
    + intros Hs. specialize (Hs 1%nat). vm_compute in Hs.
      specialize (Hs (le_n 2)). apply list_elem_of_singleton in Hs. discriminate Hs.
    + right. reflexivity.
    + discriminate.
Defined.
